(** * ahs: hostname allocation for EC2 instances

    A shallow embedding of [ahs.go] (package [main]) and the properties of
    its hostname strategies, its retry loop and the order of its effects.

    Conventions.
    - A Go [string] is a [string] of bytes; [len] and slicing count bytes.
    - A Go [int] is a [Z] in the 64-bit range; arithmetic the source performs
      on values supplied by the caller goes through [wrap].
    - A function returning [(T, error)] returns an [outcome T]; a run-time
      panic (slice bounds out of range) is the outcome [Panic].
    - Calls that leave the process (metadata service, EC2 API, [sethostname],
      [time.Sleep]) are recorded in a trace, and their answers are read from a
      [World], which may answer differently as the trace grows.
    - Log statements have no influence on results and are left out. *)

From Stdlib Require Import ZArith List String Ascii Bool Lia.
From Stdlib Require Import DecimalString Permutation Sorted.
From Stdlib Require DecimalPos.
Import ListNotations.

Local Open Scope string_scope.
Local Open Scope list_scope.
Local Open Scope Z_scope.

(** Go writes string concatenation [+]. *)
Infix "+++" := String.append (at level 60, right associativity).

Set Implicit Arguments.

(* ================================================================== *)
(** ** Go values *)

Module Go.

(** [int] on the 64-bit platforms the binary is released for. *)
Definition minInt : Z := - 2 ^ 63.
Definition maxInt : Z := 2 ^ 63 - 1.

Definition isInt (z : Z) : Prop := minInt <= z <= maxInt.

(** Two's complement wrap-around of an [int] result. *)
Definition wrap (z : Z) : Z := (z + 2 ^ 63) mod 2 ^ 64 - 2 ^ 63.

Definition add (a b : Z) : Z := wrap (a + b).
Definition sub (a b : Z) : Z := wrap (a - b).

Definition bytes (s : string) : list ascii := list_ascii_of_string s.

(** [len(s)] *)
Definition len (s : string) : Z := Z.of_nat (String.length s).

(** [s[lo:hi]]; [None] is the run-time panic "slice bounds out of range". *)
Definition slice (s : string) (lo hi : Z) : option string :=
  if (0 <=? lo) && (lo <=? hi) && (hi <=? len s)
  then Some (substring (Z.to_nat lo) (Z.to_nat (hi - lo)) s)
  else None.

(** [s[lo:]] *)
Definition sliceFrom (s : string) (lo : Z) : option string :=
  slice s lo (len s).

(** [s[:hi]] *)
Definition sliceTo (s : string) (hi : Z) : option string :=
  slice s 0 hi.

(** Errors the program creates or receives. *)
Inductive numErr := ErrSyntax | ErrRange.

Inductive error :=
| NumError (Func Num : string) (Err : numErr)   (* *strconv.NumError *)
| ErrorString (msg : string)                    (* errors.New, fmt.Errorf *)
| APIError (msg : string)                       (* returned by the SDK or the OS *)
| ExitError (cause : error) (code : Z).         (* cli.NewExitError(cause.Error(), code) *)

(** What a Go call can end in. [Spinning] is a loop that is still retrying
    when the fuel of the model runs out. *)
Inductive outcome (A : Type) :=
| Ret (a : A)
| Fail (e : error)
| Panic
| Spinning.

Arguments Ret {A} a.
Arguments Fail {A} e.
Arguments Panic {A}.
Arguments Spinning {A}.

End Go.

Import Go.

(* ================================================================== *)
(** ** Package strconv *)

Module strconv.

Definition isDigit (c : ascii) : bool :=
  (48 <=? Z.of_nat (nat_of_ascii c)) && (Z.of_nat (nat_of_ascii c) <=? 57).

Definition digitVal (c : ascii) : Z := Z.of_nat (nat_of_ascii c) - 48.

Definition maxUint64 : Z := 2 ^ 64 - 1.

(** The digit loop of [ParseUint] in base 10: a byte that is no digit is a
    syntax error; the accumulator leaving 64 bits is a range error, reported
    as soon as it happens. *)
Fixpoint parseUint (n : Z) (cs : list ascii) : numErr + Z :=
  match cs with
  | [] => inr n
  | c :: cs' =>
      if negb (isDigit c) then inl ErrSyntax
      else if maxUint64 / 10 + 1 <=? n then inl ErrRange
      else
        let n1 := n * 10 + digitVal c in
        if maxUint64 <? n1 then inl ErrRange else parseUint n1 cs'
  end.

(** [strconv.Atoi]: the value and the error, as Go returns them. *)
Definition Atoi (s : string) : Z * option error :=
  let syntax := (0, Some (NumError "Atoi" s ErrSyntax)) in
  match bytes s with
  | [] => syntax
  | c :: rest =>
      let neg := Ascii.eqb c "-" in
      let ds := if Ascii.eqb c "+" || neg then rest else c :: rest in
      match ds with
      | [] => syntax
      | _ =>
          match parseUint 0 ds with
          | inl ErrSyntax => syntax
          | inl ErrRange =>
              (if neg then minInt else maxInt, Some (NumError "Atoi" s ErrRange))
          | inr un =>
              if negb neg && (2 ^ 63 <=? un)
              then (maxInt, Some (NumError "Atoi" s ErrRange))
              else if neg && (2 ^ 63 <? un)
              then (minInt, Some (NumError "Atoi" s ErrRange))
              else (if neg then - un else un, None)
          end
      end
  end.

(** [strconv.Itoa] *)
Definition Itoa (i : Z) : string := NilZero.string_of_int (Z.to_int i).

End strconv.

(* ================================================================== *)
(** ** Package sort *)

Module sort.

Fixpoint insert (x : Z) (l : list Z) : list Z :=
  match l with
  | [] => [x]
  | y :: l' => if x <=? y then x :: l else y :: insert x l'
  end.

(** [sort.Ints]: the slice in increasing order. The result of sorting
    integers does not depend on the algorithm (see [Ints_unique]). *)
Definition Ints (l : list Z) : list Z := fold_right insert [] l.

End sort.

(* ================================================================== *)
(** ** Package regexp *)

Module regexp.

(** The fragment of RE2 syntax the program uses: classes of bytes,
    concatenation, alternation and repetition. All classes of the program
    are ASCII, so matching bytes and matching runes agree. *)
Inductive regex :=
| Void
| Eps
| Class (p : ascii -> bool)
| Cat (r1 r2 : regex)
| Alt (r1 r2 : regex)
| Star (r : regex).

Definition Plus (r : regex) : regex := Cat r (Star r).

Fixpoint nullable (r : regex) : bool :=
  match r with
  | Void => false
  | Eps => true
  | Class _ => false
  | Cat r1 r2 => nullable r1 && nullable r2
  | Alt r1 r2 => nullable r1 || nullable r2
  | Star _ => true
  end.

Fixpoint deriv (c : ascii) (r : regex) : regex :=
  match r with
  | Void => Void
  | Eps => Void
  | Class p => if p c then Eps else Void
  | Cat r1 r2 =>
      if nullable r1
      then Alt (Cat (deriv c r1) r2) (deriv c r2)
      else Cat (deriv c r1) r2
  | Alt r1 r2 => Alt (deriv c r1) (deriv c r2)
  | Star r1 => Cat (deriv c r1) (Star r1)
  end.

(** The whole of [s] is a word of [r]. *)
Fixpoint accepts (r : regex) (s : list ascii) : bool :=
  match s with
  | [] => nullable r
  | c :: s' => accepts (deriv c r) s'
  end.

(** The words of a regular expression. *)
Inductive Lang : regex -> list ascii -> Prop :=
| LEps : Lang Eps []
| LClass p c : p c = true -> Lang (Class p) [c]
| LCat r1 r2 s1 s2 : Lang r1 s1 -> Lang r2 s2 -> Lang (Cat r1 r2) (s1 ++ s2)
| LAltL r1 r2 s : Lang r1 s -> Lang (Alt r1 r2) s
| LAltR r1 r2 s : Lang r2 s -> Lang (Alt r1 r2) s
| LStarNil r : Lang (Star r) []
| LStarCons r s1 s2 : Lang r s1 -> Lang (Star r) s2 -> Lang (Star r) (s1 ++ s2).

(** A compiled pattern: its body, and whether it ends in [$]. *)
Record Regexp := { body : regex; endOfText : bool }.

Definition anyByte : regex := Class (fun _ => true).

(** [re.MatchString(s)]: some substring of [s] is a word of the body; with
    a final [$] that substring reaches the end of [s]. *)
Definition MatchString (re : Regexp) (s : string) : bool :=
  accepts
    (Cat (Star anyByte)
         (Cat (body re) (if endOfText re then Eps else Star anyByte)))
    (bytes s).

(** The classes of the program's patterns. *)
Definition lower (c : ascii) : bool :=
  (97 <=? Z.of_nat (nat_of_ascii c)) && (Z.of_nat (nat_of_ascii c) <=? 122).
Definition digit (c : ascii) : bool := strconv.isDigit c.
Definition hyphen (c : ascii) : bool := Ascii.eqb c "-".
Definition notNewline (c : ascii) : bool := negb (Ascii.eqb c "010").

End regexp.

(* ================================================================== *)
(** ** Package time and package backoff *)

Module time.
(** [time.Duration] counts nanoseconds. *)
Definition Millisecond : Z := 1000000.
Definition Second : Z := 1000 * Millisecond.
End time.

Module backoff.

Record Backoff := {
  attempt : nat;
  Factor : Z;
  Jitter : bool;
  Min : Z;
  Max : Z
}.

(** Modelled from the spec: the package github.com/jpillora/backoff is a
    dependency that is not among the sources. Section 4.1 gives its
    contract: the delay grows from the minimum by the fixed factor at each
    attempt and is capped at the maximum; jitter is disabled by [run]. *)
Definition ForAttempt (b : Backoff) (k : nat) : Z :=
  Z.min (Max b) (Min b * Factor b ^ Z.of_nat k).

(** [b.Duration()]: the delay of the current attempt, and the cursor moved
    to the next attempt. *)
Definition Duration (b : Backoff) : Z * Backoff :=
  (ForAttempt b (attempt b),
   {| attempt := S (attempt b); Factor := Factor b; Jitter := Jitter b;
      Min := Min b; Max := Max b |}).

(** [b.Reset()] *)
Definition Reset (b : Backoff) : Backoff :=
  {| attempt := O; Factor := Factor b; Jitter := Jitter b;
     Min := Min b; Max := Max b |}.

End backoff.

(* ================================================================== *)
(** ** The AWS data the program reads *)

Module ec2.

Record Tag := { Key : string; Value : string }.
Record Instance := { InstanceId : string; Tags : list Tag }.
Record Reservation := { Instances : list Instance }.

(** An entry of [DescribeTagsOutput.Tags]; [DKey] and [DValue] are its
    fields [Key] and [Value], which the service fills for every entry. *)
Record TagDescription := { ResourceId : string; DKey : string; DValue : string }.

Record Filter := { Name : string; Values : list string }.

End ec2.

Import ec2.

(* ================================================================== *)
(** ** Effects *)

(** What leaves the process, in the order in which it happens. *)
Inductive event :=
| MDSAvailable
| MDSGetMetadata (path : string)
| EC2DescribeInstances (filters : list Filter)
| EC2DescribeTags (filters : list Filter)
| Sleep (d : Z)
| Sethostname (name : string)
| EC2CreateTags (resource key value : string).

Definition trace := list event.

(** The writes are the local hostname and the tags of the instance. *)
Definition isWrite (e : event) : bool :=
  match e with
  | Sethostname _ | EC2CreateTags _ _ _ => true
  | _ => false
  end.

(** The remote reads: metadata service and EC2 queries. *)
Definition isRead (e : event) : bool :=
  match e with
  | MDSAvailable | MDSGetMetadata _ | EC2DescribeInstances _ | EC2DescribeTags _ => true
  | _ => false
  end.

(** The answers of the environment. Each answer may depend on everything
    that happened before the call. *)
Record World := {
  logger_Configure : string -> string -> option error;
  user_Current : error + string;
  MDS_Available : trace -> bool;
  MDS_GetMetadata : trace -> string -> error + string;
  EC2_DescribeInstances : trace -> list Filter -> error + list Reservation;
  EC2_DescribeTags : trace -> list Filter -> error + list TagDescription;
  syscall_Sethostname : trace -> string -> option error;
  EC2_CreateTags : trace -> string -> string -> string -> option error
}.

(** Computations that extend the trace. *)
Definition M (A : Type) : Type := trace -> trace * outcome A.

Definition ret {A} (a : A) : M A := fun t => (t, Ret a).

Definition bind {A B} (m : M A) (k : A -> M B) : M B :=
  fun t =>
    match m t with
    | (t1, Ret a) => k a t1
    | (t1, Fail e) => (t1, Fail e)
    | (t1, Panic) => (t1, Panic)
    | (t1, Spinning) => (t1, Spinning)
    end.

Notation "x <- m ;; k" := (bind m (fun x => k))
  (at level 61, m at next level, right associativity).
Notation "m ;;; k" := (bind m (fun _ => k))
  (at level 61, right associativity).

Definition fail {A} (e : error) : M A := fun t => (t, Fail e).

(** A call to the outside: the event is appended, the answer is the one the
    world gives after the trace so far. *)
Definition perform {A} (e : event) (answer : trace -> A) : M A :=
  fun t => (t ++ [e], Ret (answer t)).

(** A pure Go call inside an effectful one. *)
Definition lift {A} (o : outcome A) : M A := fun t => (t, o).

(** [(T, error)] as received from a library. *)
Definition ofSum {A} (r : error + A) : M A :=
  match r with
  | inl e => fail e
  | inr a => ret a
  end.

(** [error] as received from a library. *)
Definition ofErr (r : option error) : M unit :=
  match r with
  | Some e => fail e
  | None => ret tt
  end.

(** [if err != nil { return exit(cli.NewExitError(err.Error(), 1)) }] *)
Definition orExit {A} (m : M A) : M A :=
  fun t =>
    match m t with
    | (t1, Fail e) => (t1, Fail (ExitError e 1))
    | r => r
    end.

(* ================================================================== *)
(** ** ahs.go *)

(** The command line, as [run] reads it from [*cli.Context]. *)
Record Context := {
  FullName : string;               (* ctx.Command.FullName() *)
  flagLogLevel : string;           (* --log-level *)
  flagLogFormat : string;          (* --log-format *)
  flagInputTag : string;           (* --input-tag *)
  flagOutputTag : string;          (* --output-tag *)
  flagSeparator : string;          (* --separator *)
  flagDryRun : bool;               (* --dry-run *)
  flagLength : Z;                  (* --length *)
  flagInstanceGroupTag : string;         (* --instance-group-tag *)
  flagInstanceSequentialIDTag : string   (* --instance-sequential-id-tag *)
}.

(** [regexp.MustCompile("[a-z]{2}-[a-z]+-\\d")] *)
Definition regionRe : regexp.Regexp :=
  let lower := regexp.Class regexp.lower in
  let hyphen := regexp.Class regexp.hyphen in
  {| regexp.body :=
       regexp.Cat lower (regexp.Cat lower (regexp.Cat hyphen
         (regexp.Cat (regexp.Plus lower) (regexp.Cat hyphen
           (regexp.Class regexp.digit)))));
     regexp.endOfText := false |}.

(** [regexp.MustCompile("[a-z]{2}-[a-z]+-\\d[a-z]")] *)
Definition azRe : regexp.Regexp :=
  let lower := regexp.Class regexp.lower in
  let hyphen := regexp.Class regexp.hyphen in
  {| regexp.body :=
       regexp.Cat lower (regexp.Cat lower (regexp.Cat hyphen
         (regexp.Cat (regexp.Plus lower) (regexp.Cat hyphen
           (regexp.Cat (regexp.Class regexp.digit) lower)))));
     regexp.endOfText := false |}.

(** [regexp.MustCompile(".*-(\\d+)$")] *)
Definition sequentialRe : regexp.Regexp :=
  {| regexp.body :=
       regexp.Cat (regexp.Star (regexp.Class regexp.notNewline))
         (regexp.Cat (regexp.Class regexp.hyphen)
            (regexp.Plus (regexp.Class regexp.digit)));
     regexp.endOfText := true |}.

(** [re.FindStringSubmatch(base)[1]] for [sequentialRe], on a [base] that
    matches: the digits between the hyphen and the end of the text. The
    group is all digits and is preceded by a hyphen, so it is the longest
    run of digits that ends the text, whichever match the engine prefers
    (see [sequential_group_unique]). *)
Fixpoint trailingDigits (rev_bytes : list ascii) (acc : list ascii) : list ascii :=
  match rev_bytes with
  | [] => acc
  | c :: rest => if regexp.digit c then trailingDigits rest (c :: acc) else acc
  end.

Definition sequentialGroup (base : string) : string :=
  string_of_list_ascii (trailingDigits (rev (bytes base)) []).

(** [computeRegionFromAZ]. A length is not negative, so [len(az)-1] does
    not wrap. *)
Definition computeRegionFromAZ (az : string) : outcome string :=
  if negb (regexp.MatchString azRe az) then
    Fail (ErrorString
            ("Cannot compute region from invalid availability-zone '" +++ az +++ "'"))
  else
    match sliceTo az (len az - 1) with
    | None => Panic
    | Some region => Ret region
    end.

(** [computeHostnameWithInstanceID]. Its error result is [nil] on every
    return of the source. *)
Definition computeHostnameWithInstanceID
    (base instanceID separator : string) (length : Z) : outcome string :=
  match sliceFrom base (sub (len base) length) with
  | None => Panic
  | Some tail =>
      match slice instanceID 2 (add 2 length) with
      | None => Panic
      | Some suffix =>
          if String.eqb tail suffix then Ret base
          else
            match slice instanceID 2 (add 2 length) with
            | None => Panic
            | Some suffix' => Ret (base +++ separator +++ suffix')
            end
      end
  end.

(** The three nested loops of [getBaseFromInputTag]: the value of the first
    tag whose key is [inputTag]. *)
Fixpoint inputTagOfTags (inputTag : string) (tags : list Tag) : option string :=
  match tags with
  | [] => None
  | tag :: tags' =>
      if String.eqb (Key tag) inputTag then Some (Value tag)
      else inputTagOfTags inputTag tags'
  end.

Fixpoint inputTagOfInstances (inputTag : string) (insts : list Instance) : option string :=
  match insts with
  | [] => None
  | instance :: insts' =>
      match inputTagOfTags inputTag (Tags instance) with
      | Some v => Some v
      | None => inputTagOfInstances inputTag insts'
      end
  end.

Fixpoint inputTagOfReservations (inputTag : string) (rs : list Reservation) : option string :=
  match rs with
  | [] => None
  | reservation :: rs' =>
      match inputTagOfInstances inputTag (Instances reservation) with
      | Some v => Some v
      | None => inputTagOfReservations inputTag rs'
      end
  end.

(** The loops of [findAvailableNumberInInstanceGroup] that fill [used]: every
    tag whose key is [sequentialIDTag] is parsed and appended; the first
    value that does not parse ends the function with the parse error. *)
Fixpoint usedOfTags (sequentialIDTag : string) (tags : list Tag) (used : list Z)
  : error + list Z :=
  match tags with
  | [] => inr used
  | tag :: tags' =>
      if String.eqb (Key tag) sequentialIDTag then
        match strconv.Atoi (Value tag) with
        | (_, Some err) => inl err
        | (v, None) => usedOfTags sequentialIDTag tags' (used ++ [v])
        end
      else usedOfTags sequentialIDTag tags' used
  end.

Fixpoint usedOfInstances (sequentialIDTag : string) (insts : list Instance) (used : list Z)
  : error + list Z :=
  match insts with
  | [] => inr used
  | instance :: insts' =>
      match usedOfTags sequentialIDTag (Tags instance) used with
      | inl err => inl err
      | inr used' => usedOfInstances sequentialIDTag insts' used'
      end
  end.

Fixpoint usedOfReservations (sequentialIDTag : string) (rs : list Reservation) (used : list Z)
  : error + list Z :=
  match rs with
  | [] => inr used
  | reservation :: rs' =>
      match usedOfInstances sequentialIDTag (Instances reservation) used with
      | inl err => inl err
      | inr used' => usedOfReservations sequentialIDTag rs' used'
      end
  end.

(** [for i := 0; i < len(used); i++ { if used[i] != i+1 { return i + 1 } };
    return len(used) + 1], with [n] the length of [used], [i] the index and
    [rest] the elements from index [i] on. The index stays below the length
    of a slice, so [i + 1] does not wrap. *)
Fixpoint firstGap (n i : Z) (rest : list Z) : Z :=
  match rest with
  | [] => n + 1
  | u :: rest' => if negb (u =? i + 1) then i + 1 else firstGap n (i + 1) rest'
  end.

(** Lines 407 to 414 of [findAvailableNumberInInstanceGroup]. *)
Definition lowestFree (used : list Z) : Z :=
  let used := sort.Ints used in
  firstGap (Z.of_nat (List.length used)) 0 used.

Section Clients.

(** The receiver [c *Clients]: the sessions give access to the world. *)
Variable c : World.

(** [getAWSMDSClient] *)
Definition getAWSMDSClient : M unit :=
  available <- perform MDSAvailable (MDS_Available c) ;;
  if negb available then
    fail (ErrorString
            "Unable to access the metadata service, are you running this binary from an AWS EC2 instance?")
  else ret tt.

(** [getAWSEC2Client] *)
Definition getAWSEC2Client (region : string) : M unit :=
  if negb (regexp.MatchString regionRe region) then
    fail (ErrorString
            ("Cannot start AWS EC2 client session with invalid region '" +++ region +++ "'"))
  else ret tt.

(** [getInstanceAZ] *)
Definition getInstanceAZ : M string :=
  r <- perform (MDSGetMetadata "placement/availability-zone")
         (fun t => MDS_GetMetadata c t "placement/availability-zone") ;;
  ofSum r.

(** [getInstanceID] *)
Definition getInstanceID : M string :=
  r <- perform (MDSGetMetadata "instance-id")
         (fun t => MDS_GetMetadata c t "instance-id") ;;
  ofSum r.

(** [getBaseFromInputTag] *)
Definition getBaseFromInputTag (inputTag instanceID : string) : M string :=
  let filters := [ {| Name := "instance-id"; Values := [instanceID] |} ] in
  r <- perform (EC2DescribeInstances filters)
         (fun t => EC2_DescribeInstances c t filters) ;;
  match r with
  | inl err => fail err
  | inr reservations =>
      match inputTagOfReservations inputTag reservations with
      | Some v => ret v
      | None =>
          fail (ErrorString ("Instance doesn't contain input-tag '" +++ inputTag +++ "'"))
      end
  end.

(** [setSystemHostname] *)
Definition setSystemHostname (hostname : string) : M unit :=
  r <- perform (Sethostname hostname) (fun t => syscall_Sethostname c t hostname) ;;
  ofErr r.

(** [setTagValue] *)
Definition setTagValue (instanceID tag value : string) : M unit :=
  r <- perform (EC2CreateTags instanceID tag value)
         (fun t => EC2_CreateTags c t instanceID tag value) ;;
  ofErr r.

(** [findInstanceGroupTagValue] *)
Definition findInstanceGroupTagValue (groupTag instanceID : string) : M string :=
  let filters :=
    [ {| Name := "resource-type"; Values := ["instance"] |};
      {| Name := "resource-id"; Values := [instanceID] |};
      {| Name := "key"; Values := [groupTag] |} ] in
  r <- perform (EC2DescribeTags filters) (fun t => EC2_DescribeTags c t filters) ;;
  match r with
  | inl err => fail err
  | inr tags =>
      if negb (Z.of_nat (List.length tags) =? 1) then
        fail (ErrorString
                ("Unexpected amount of tags retrieved : '"
                 +++ strconv.Itoa (Z.of_nat (List.length tags)) +++ "',  expected 1"))
      else
        match tags with
        | tag0 :: _ => ret (DValue tag0)
        | [] => lift Panic
        end
  end.

(** [findAvailableNumberInInstanceGroup] *)
Definition findAvailableNumberInInstanceGroup
    (instanceGroup groupTag sequentialIDTag : string) : M Z :=
  let filters := [ {| Name := "tag:" +++ groupTag; Values := [instanceGroup] |} ] in
  r <- perform (EC2DescribeInstances filters)
         (fun t => EC2_DescribeInstances c t filters) ;;
  match r with
  | inl err => fail err
  | inr reservations =>
      match usedOfReservations sequentialIDTag reservations [] with
      | inl err => fail err
      | inr used => ret (lowestFree used)
      end
  end.

(** [computeSequentialHostname]: the hostname and the sequential ID. *)
Definition computeSequentialHostname
    (base instanceID separator groupTag sequentialIDTag : string) : M (string * Z) :=
  if regexp.MatchString sequentialRe base then
    match strconv.Atoi (sequentialGroup base) with
    | (_, Some err) => fail err
    | (sequentialID, None) => ret (base, sequentialID)
    end
  else
    instanceGroup <- findInstanceGroupTagValue groupTag instanceID ;;
    sequentialID <- findAvailableNumberInInstanceGroup instanceGroup groupTag sequentialIDTag ;;
    ret (base +++ separator +++ strconv.Itoa sequentialID, sequentialID).

(** The loop of [run] that fetches the value of the input tag (lines 124
    to 137). [giveUp] is the delay at which the loop stops retrying; [run]
    passes the constant of the source. [fuel] bounds the number of
    attempts the model follows. *)
Fixpoint fetchBase (giveUp : Z) (fuel : nat) (b : backoff.Backoff)
    (inputTag instanceID : string) : M (string * backoff.Backoff) :=
  match fuel with
  | O => lift Spinning
  | S fuel' =>
      fun t =>
        match getBaseFromInputTag inputTag instanceID t with
        | (t1, Fail err) =>
            let (d, b') := backoff.Duration b in
            if d =? giveUp then (t1, Fail (ExitError err 1))
            else
              (perform (Sleep d) (fun _ => tt) ;;;
               fetchBase giveUp fuel' b' inputTag instanceID) t1
        | (t1, Ret base) => (t1, Ret (base, backoff.Reset b))
        | (t1, Panic) => (t1, Panic)
        | (t1, Spinning) => (t1, Spinning)
        end
  end.

(** What [run] has computed when it reaches the writes. *)
Record Values := {
  AZ : string;
  Base : string;
  Hostname : string;
  InstanceID : string;
  Region : string;
  SequentialID : Z
}.

(** [Params.Backoff] as [run] builds it. *)
Definition runBackoff : backoff.Backoff :=
  {| backoff.attempt := O;
     backoff.Factor := 2;
     backoff.Jitter := false;
     backoff.Min := 100 * time.Millisecond;
     backoff.Max := 120 * time.Second |}.

(** [run], up to the error check that follows the strategy (lines 50 to
    150): every read and the computation of the hostname. *)
Definition resolve (ctx : Context) (fuel : nat) : M Values :=
  match logger_Configure c (flagLogLevel ctx) (flagLogFormat ctx) with
  | Some _ => lift Panic
  | None =>
      match user_Current c with
      | inl _ => fail (ExitError (ErrorString "Unable to determine current user") 1)
      | inr username =>
          if negb (String.eqb username "root") then
            fail (ExitError (ErrorString "You have to run this function as root") 1)
          else
            orExit getAWSMDSClient ;;;
            az <- orExit getInstanceAZ ;;
            region <- orExit (lift (computeRegionFromAZ az)) ;;
            orExit (getAWSEC2Client region) ;;;
            instanceID <- orExit getInstanceID ;;
            fetched <- fetchBase (60 * time.Second) fuel runBackoff
                         (flagInputTag ctx) instanceID ;;
            let base := fst fetched in
            named <-
              (if String.eqb (FullName ctx) "instance-id" then
                 hostname <- orExit (lift (computeHostnameWithInstanceID
                                             base instanceID (flagSeparator ctx)
                                             (flagLength ctx))) ;;
                 ret (hostname, -1)
               else if String.eqb (FullName ctx) "sequential" then
                 orExit (computeSequentialHostname base instanceID (flagSeparator ctx)
                           (flagInstanceGroupTag ctx) (flagInstanceSequentialIDTag ctx))
               else
                 fail (ExitError
                         (ErrorString
                            ("Function " +++ FullName ctx +++ " is not implemented")) 1)) ;;
            ret {| AZ := az; Base := base; Hostname := fst named;
                   InstanceID := instanceID; Region := region;
                   SequentialID := snd named |}
      end
  end.

(** [run], from the dry-run test on (lines 152 to 177). *)
Definition persist (ctx : Context) (v : Values) : M unit :=
  if negb (flagDryRun ctx) then
    orExit (setSystemHostname (Hostname v)) ;;;
    orExit (setTagValue (InstanceID v) (flagOutputTag ctx) (Hostname v)) ;;;
    if String.eqb (FullName ctx) "sequential" then
      orExit (setTagValue (InstanceID v) (flagInstanceSequentialIDTag ctx)
                (strconv.Itoa (SequentialID v)))
    else ret tt
  else ret tt.

(** [run] *)
Definition run (ctx : Context) (fuel : nat) : M unit :=
  v <- resolve ctx fuel ;;
  persist ctx v.

End Clients.


(* ================================================================== *)
(** ** Worlds used as concrete inputs *)

(** An instance of a group that carries the given tags. *)
Definition peer (id : string) (tags : list (string * string)) : Instance :=
  {| InstanceId := id;
     Tags := map (fun kv => {| Key := fst kv; Value := snd kv |}) tags |}.

(** How many [DescribeInstances] calls a trace holds. *)
Fixpoint describeCalls (t : trace) : nat :=
  match t with
  | [] => O
  | EC2DescribeInstances _ :: t' => S (describeCalls t')
  | _ :: t' => describeCalls t'
  end.

(** A world in which the process is root on an instance: the metadata
    service answers [az] and [iid]; the [n]-th query of the own instance is
    answered by [own n], the query of its group tag by [groupTags], and the
    query of the instances of a group by [peers]; every write succeeds. *)
Definition instanceWorld (az iid : string)
    (own : nat -> error + list Reservation)
    (groupTags : error + list TagDescription)
    (peers : error + list Reservation) : World :=
  {| logger_Configure := fun _ _ => None;
     user_Current := inr "root";
     MDS_Available := fun _ => true;
     MDS_GetMetadata := fun _ path =>
       if String.eqb path "instance-id" then inr iid else inr az;
     EC2_DescribeInstances := fun t filters =>
       match filters with
       | f :: _ =>
           if String.eqb (Name f) "instance-id" then own (describeCalls t) else peers
       | [] => peers
       end;
     EC2_DescribeTags := fun _ _ => groupTags;
     syscall_Sethostname := fun _ _ => None;
     EC2_CreateTags := fun _ _ _ _ => None |}.

(** The own instance with one tag [Name]. *)
Definition named (iid name : string) : error + list Reservation :=
  inr [ {| Instances := [ peer iid [("Name", name)] ] |} ].

(** A group of three instances whose sequential IDs are the given texts. *)
Definition groupOf (a b c : string) : error + list Reservation :=
  inr [ {| Instances := [ peer "i-0aaa0000000000001" [("Name", "web"); ("ahs:instance-id", a)];
                          peer "i-0aaa0000000000002" [("ahs:instance-id", b)] ] |};
        {| Instances := [ peer "i-0aaa0000000000003" [("ahs:instance-id", c); ("Name", "web")] ] |} ].

(** The EC2 API refuses every query. *)
Definition throttled : error + list Reservation :=
  inl (APIError "RequestLimitExceeded: Request limit exceeded.").

(** The query [findAvailableNumberInInstanceGroup] sends. *)
Definition groupFilters (instanceGroup groupTag : string) : list Filter :=
  [ {| Name := "tag:" +++ groupTag; ec2.Values := [instanceGroup] |} ].

(** The query [findInstanceGroupTagValue] sends. *)
Definition instanceTagFilters (groupTag instanceID : string) : list Filter :=
  [ {| Name := "resource-type"; ec2.Values := ["instance"] |};
    {| Name := "resource-id"; ec2.Values := [instanceID] |};
    {| Name := "key"; ec2.Values := [groupTag] |} ].

(** Every byte of [s] is in the class [p]. *)
Definition allOf (p : ascii -> bool) (s : string) : Prop :=
  Forall (fun ch => p ch = true) (bytes s).

(** The shape of an availability zone: two lower-case letters, a hyphen, a
    word of lower-case letters, a hyphen, a digit and a lower-case letter. *)
Definition AZShape (m : string) : Prop :=
  exists a b w d l,
    m = String a (String b ("-" +++ w +++ String "-" (String d (String l ""))))
    /\ regexp.lower a = true /\ regexp.lower b = true
    /\ w <> "" /\ allOf regexp.lower w
    /\ regexp.digit d = true /\ regexp.lower l = true.

(** Some substring of [s] satisfies [P]. *)
Definition Contains (P : string -> Prop) (s : string) : Prop :=
  exists pre m post, s = pre +++ m +++ post /\ P m.

(** [s] without its last byte. *)
Definition dropLast (s : string) : string :=
  substring 0 (String.length s - 1) s.

(** [base] ends in a hyphen followed by the digits [ds]. *)
Definition NumericSuffix (base ds : string) : Prop :=
  (exists pre, base = pre +++ "-" +++ ds) /\ ds <> "" /\ allOf regexp.digit ds.

(** The number a string of decimal digits denotes. *)
Definition decimal (ds : string) : Z :=
  fold_left (fun n ch => n * 10 + strconv.digitVal ch) (bytes ds) 0.

(** The delays a trace slept, in order. *)
Fixpoint sleeps (t : trace) : list Z :=
  match t with
  | [] => []
  | Sleep d :: t' => d :: sleeps t'
  | _ :: t' => sleeps t'
  end.

(** The backoff of [run] after [k] calls of [Duration]. *)
Definition backoffAt (k : nat) : backoff.Backoff :=
  {| backoff.attempt := k;
     backoff.Factor := 2;
     backoff.Jitter := false;
     backoff.Min := 100 * time.Millisecond;
     backoff.Max := 120 * time.Second |}.

(** The delay of the [k]-th failed attempt of [run]. *)
Definition delay (k : nat) : Z := backoff.ForAttempt runBackoff k.

(** The writes of a run that is not a dry run, in their order. *)
Definition writesOf (ctx : Context) (v : Values) : trace :=
  [ Sethostname (Hostname v);
    EC2CreateTags (InstanceID v) (flagOutputTag ctx) (Hostname v) ]
  ++ (if String.eqb (FullName ctx) "sequential"
      then [ EC2CreateTags (InstanceID v) (flagInstanceSequentialIDTag ctx)
               (strconv.Itoa (SequentialID v)) ]
      else []).

Definition isPrefix (p l : trace) : Prop := exists rest, l = p ++ rest.

(** A computation that appends no write to the trace. *)
Definition ReadsOnly {A} (m : M A) : Prop :=
  forall t, exists rs,
    fst (m t) = t ++ rs /\ Forall (fun e => isWrite e = false) rs.

(** The command lines of the examples. *)
Definition sequentialCtx : Context :=
  {| FullName := "sequential";
     flagLogLevel := "info"; flagLogFormat := "text";
     flagInputTag := "Name"; flagOutputTag := "Name"; flagSeparator := "-";
     flagDryRun := false; flagLength := 5;
     flagInstanceGroupTag := "ahs:instance-group";
     flagInstanceSequentialIDTag := "ahs:instance-id" |}.

Definition instanceIDCtx : Context :=
  {| FullName := "instance-id";
     flagLogLevel := "info"; flagLogFormat := "text";
     flagInputTag := "Name"; flagOutputTag := "Name"; flagSeparator := "-";
     flagDryRun := false; flagLength := 5;
     flagInstanceGroupTag := "ahs:instance-group";
     flagInstanceSequentialIDTag := "ahs:instance-id" |}.

(** An instance named "web" in the group "web", whose peers hold the
    sequential IDs 1, 2 and 4; the first query of the own instance is
    refused, the following ones are answered. *)
Definition webWorld : World :=
  instanceWorld "eu-west-1a" "i-0123456789abcdef0"
    (fun n => match n with O => throttled | _ => named "i-0123456789abcdef0" "web" end)
    (inr [ {| ResourceId := "i-0123456789abcdef0";
              DKey := "ahs:instance-group"; DValue := "web" |} ])
    (groupOf "1" "2" "4").

(** The same instance when the EC2 API refuses every query. *)
Definition throttledWorld : World :=
  instanceWorld "eu-west-1a" "i-0123456789abcdef0" (fun _ => throttled)
    (inr []) throttled.

(** All tags of a response, in the order in which the nested loops of
    [getBaseFromInputTag] and [findAvailableNumberInInstanceGroup] visit
    them. *)
Definition tagsOfReservations (rs : list Reservation) : list Tag :=
  flat_map (fun reservation => flat_map Tags (Instances reservation)) rs.

(** The values of the tags of a response whose key is [sequentialIDTag]. *)
Definition sequentialValues (sequentialIDTag : string) (rs : list Reservation)
  : list string :=
  map Value (filter (fun tag => String.eqb (Key tag) sequentialIDTag)
               (tagsOfReservations rs)).

(** [strconv.Atoi] on each text in turn; the error of the first text that
    does not parse. *)
Fixpoint parseAll (vs : list string) : error + list Z :=
  match vs with
  | [] => inr []
  | v :: vs' =>
      match strconv.Atoi v with
      | (_, Some err) => inl err
      | (n, None) =>
          match parseAll vs' with
          | inl err => inl err
          | inr ns => inr (n :: ns)
          end
      end
  end.

(** The query [getBaseFromInputTag] sends. *)
Definition ownFilters (instanceID : string) : list Filter :=
  [ {| Name := "instance-id"; ec2.Values := [instanceID] |} ].

(** The trace after [k] failed attempts of the loop of [run] that started
    at [t]: each attempt is a query followed by the sleep of its delay. *)
Fixpoint attemptTrace (t : trace) (instanceID : string) (k : nat) : trace :=
  match k with
  | O => t
  | S k' =>
      attemptTrace t instanceID k'
      ++ [EC2DescribeInstances (ownFilters instanceID); Sleep (delay k')]
  end.

(** The IDs 1 to [n]. *)
Definition denseIDs (n : nat) : list Z := map Z.of_nat (seq 1 n).

(** A dry run of the sequential command. *)
Definition dryRunCtx : Context :=
  {| FullName := "sequential";
     flagLogLevel := "info"; flagLogFormat := "text";
     flagInputTag := "Name"; flagOutputTag := "Name"; flagSeparator := "-";
     flagDryRun := true; flagLength := 5;
     flagInstanceGroupTag := "ahs:instance-group";
     flagInstanceSequentialIDTag := "ahs:instance-id" |}.

(** A command the switch of [run] does not know. *)
Definition unknownCtx : Context :=
  {| FullName := "random";
     flagLogLevel := "info"; flagLogFormat := "text";
     flagInputTag := "Name"; flagOutputTag := "Name"; flagSeparator := "-";
     flagDryRun := false; flagLength := 5;
     flagInstanceGroupTag := "ahs:instance-group";
     flagInstanceSequentialIDTag := "ahs:instance-id" |}.

(** The instance named "web" when every query is answered at once. *)
Definition steadyWorld : World :=
  instanceWorld "eu-west-1a" "i-0123456789abcdef0"
    (fun _ => named "i-0123456789abcdef0" "web")
    (inr [ {| ResourceId := "i-0123456789abcdef0";
              DKey := "ahs:instance-group"; DValue := "web" |} ])
    (groupOf "1" "2" "4").

(** The same instance when the process is not run by root. *)
Definition guestWorld : World :=
  {| logger_Configure := logger_Configure steadyWorld;
     user_Current := inr "ec2-user";
     MDS_Available := MDS_Available steadyWorld;
     MDS_GetMetadata := MDS_GetMetadata steadyWorld;
     EC2_DescribeInstances := EC2_DescribeInstances steadyWorld;
     EC2_DescribeTags := EC2_DescribeTags steadyWorld;
     syscall_Sethostname := syscall_Sethostname steadyWorld;
     EC2_CreateTags := EC2_CreateTags steadyWorld |}.

(** The same instance when it carries no group tag. *)
Definition ungroupedWorld : World :=
  instanceWorld "eu-west-1a" "i-0123456789abcdef0"
    (fun _ => named "i-0123456789abcdef0" "web")
    (inr []) (groupOf "1" "2" "4").

(** The same instance when its role may not create tags. *)
Definition readOnlyTagsWorld : World :=
  {| logger_Configure := logger_Configure steadyWorld;
     user_Current := user_Current steadyWorld;
     MDS_Available := MDS_Available steadyWorld;
     MDS_GetMetadata := MDS_GetMetadata steadyWorld;
     EC2_DescribeInstances := EC2_DescribeInstances steadyWorld;
     EC2_DescribeTags := EC2_DescribeTags steadyWorld;
     syscall_Sethostname := syscall_Sethostname steadyWorld;
     EC2_CreateTags := fun _ _ _ _ =>
       Some (APIError "UnauthorizedOperation: You are not authorized to perform this operation.") |}.

(** What [run] has computed for the instance "web" with the free ID 3. *)
Definition web3 : Values :=
  {| AZ := "eu-west-1a"; Base := "web"; Hostname := "web-3";
     InstanceID := "i-0123456789abcdef0"; Region := "eu-west-1";
     SequentialID := 3 |}.

(** [r] is the lowest positive integer that is not in [used]. *)
Definition LowestFree (used : list Z) (r : Z) : Prop :=
  0 < r /\ ~ In r used /\ forall k, 0 < k < r -> In k used.

(* ================================================================== *)
(** ** Sorting *)

Lemma insert_perm x l : Permutation (x :: l) (sort.insert x l).
Proof.
  induction l as [|y l IH]; simpl; [reflexivity|].
  destruct (x <=? y); [reflexivity|].
  rewrite perm_swap. now constructor.
Qed.

Lemma Ints_perm l : Permutation l (sort.Ints l).
Proof.
  induction l as [|x l IH]; simpl; [constructor|].
  rewrite <- insert_perm. now constructor.
Qed.

Lemma Ints_length l : List.length (sort.Ints l) = List.length l.
Proof. symmetry. apply Permutation_length, Ints_perm. Qed.

Lemma insert_sorted x l :
  StronglySorted Z.le l -> StronglySorted Z.le (sort.insert x l).
Proof.
  induction 1 as [|y l Hs IH Hy]; simpl.
  - repeat constructor.
  - destruct (Z.leb_spec x y).
    + constructor; [now constructor|].
      constructor; [assumption|].
      eapply Forall_impl; [|exact Hy]. simpl; intros; lia.
    + constructor; [assumption|].
      eapply Permutation_Forall; [apply insert_perm|].
      constructor; [lia|assumption].
Qed.

Lemma Ints_sorted l : StronglySorted Z.le (sort.Ints l).
Proof.
  induction l; simpl; [constructor|now apply insert_sorted].
Qed.

Lemma sorted_perm_eq l1 :
  forall l2, StronglySorted Z.le l1 -> StronglySorted Z.le l2 ->
             Permutation l1 l2 -> l1 = l2.
Proof.
  induction l1 as [|a l1 IH]; intros l2 H1 H2 HP.
  - now apply Permutation_nil in HP.
  - destruct l2 as [|b l2].
    + symmetry in HP. now apply Permutation_nil in HP.
    + inversion H1 as [|? ? Hs1 Ha]; inversion H2 as [|? ? Hs2 Hb]; subst.
      assert (a = b) as ->.
      { assert (In a (b :: l2)) as Ia
          by (eapply Permutation_in; [exact HP|now left]).
        assert (In b (a :: l1)) as Ib
          by (eapply Permutation_in; [symmetry; exact HP|now left]).
        rewrite Forall_forall in Ha, Hb.
        destruct Ia as [->|Ia]; [reflexivity|].
        destruct Ib as [->|Ib]; [reflexivity|].
        specialize (Ha _ Ib). specialize (Hb _ Ia). lia. }
      f_equal. apply IH; try assumption.
      eapply Permutation_cons_inv; exact HP.
Qed.

(** Whatever algorithm [sort.Ints] runs, its result is the one of the model. *)
Lemma Ints_unique l l' :
  StronglySorted Z.le l' -> Permutation l l' -> l' = sort.Ints l.
Proof.
  intros Hs HP. apply sorted_perm_eq; [assumption|apply Ints_sorted|].
  rewrite <- HP. apply Ints_perm.
Qed.

Lemma sorted_nodup_strict l :
  StronglySorted Z.le l -> NoDup l -> StronglySorted Z.lt l.
Proof.
  induction 1 as [|a l Hs IH Ha]; intros Hn; [constructor|].
  inversion Hn as [|? ? Hnot Hn']; subst.
  constructor; [now apply IH|].
  rewrite Forall_forall in *. intros x Hx.
  specialize (Ha _ Hx). assert (x <> a) by (intros ->; contradiction). lia.
Qed.

(* ================================================================== *)
(** ** The scan for the first gap *)

Lemma firstGap_bounds rest :
  forall n i, n = i + Z.of_nat (List.length rest) ->
              i + 1 <= firstGap n i rest <= n + 1.
Proof.
  induction rest as [|u rest IH]; intros n i Hn; simpl in *.
  - lia.
  - destruct (u =? i + 1); simpl; [|lia].
    specialize (@IH n (i + 1)). lia.
Qed.

Lemma firstGap_lowest rest :
  forall n i, n = i + Z.of_nat (List.length rest) ->
    StronglySorted Z.lt rest ->
    (forall x, In x rest -> i < x) ->
    ~ In (firstGap n i rest) rest /\
    forall k, i < k < firstGap n i rest -> In k rest.
Proof.
  induction rest as [|u rest IH]; intros n i Hn Hs Hgt; simpl firstGap.
  - split; [intros []|]. intros k Hk. simpl in Hn. lia.
  - inversion Hs as [|? ? Hs' Hu]; subst. rewrite Forall_forall in Hu.
    destruct (Z.eqb_spec u (i + 1)) as [->|Hne]; simpl negb; cbv iota.
    + destruct (@IH (i + 1 + Z.of_nat (List.length rest)) (i + 1)) as [Hnot Hall];
        [reflexivity|assumption|exact Hu|].
      replace (i + Z.of_nat (List.length (i + 1 :: rest)))
        with (i + 1 + Z.of_nat (List.length rest)) by (simpl List.length; lia).
      pose proof (@firstGap_bounds rest _ (i + 1) eq_refl) as Hb.
      split.
      * intros [He|Hin]; [lia|contradiction].
      * intros k Hk. destruct (Z.eq_dec k (i + 1)) as [->|]; [now left|].
        right. apply Hall. lia.
    + assert (i < u) by (apply Hgt; now left).
      split.
      * intros [He|Hin]; [lia|]. specialize (Hu _ Hin). lia.
      * intros k Hk. lia.
Qed.

Lemma lowestFree_bounds used :
  1 <= lowestFree used <= Z.of_nat (List.length used) + 1.
Proof.
  unfold lowestFree.
  pose proof (@firstGap_bounds (sort.Ints used) _ 0 eq_refl) as H.
  simpl in H. rewrite Ints_length in *. lia.
Qed.

Lemma lowestFree_spec used :
  NoDup used -> (forall x, In x used -> 0 < x) ->
  LowestFree used (lowestFree used).
Proof.
  intros Hn Hpos. unfold lowestFree.
  pose proof (Ints_perm used) as HP.
  destruct (@firstGap_lowest (sort.Ints used) _ 0 eq_refl) as [Hnot Hall].
  - apply sorted_nodup_strict; [apply Ints_sorted|].
    eapply Permutation_NoDup; eassumption.
  - intros x Hx. apply Hpos. eapply Permutation_in; [symmetry; exact HP|exact Hx].
  - pose proof (@firstGap_bounds (sort.Ints used) _ 0 eq_refl) as Hb.
    simpl in Hnot, Hall, Hb.
    split; [lia|]. split.
    + intros Hin. apply Hnot. eapply Permutation_in; eassumption.
    + intros k Hk. eapply Permutation_in; [symmetry; exact HP|]. now apply Hall.
Qed.

(* ================================================================== *)
(** ** Sequential allocation: the lowest free ID *)

Lemma findAvailableNumberInInstanceGroup_eq c instanceGroup groupTag sequentialIDTag t :
  findAvailableNumberInInstanceGroup c instanceGroup groupTag sequentialIDTag t =
  (t ++ [EC2DescribeInstances (groupFilters instanceGroup groupTag)],
   match EC2_DescribeInstances c t (groupFilters instanceGroup groupTag) with
   | inl err => Fail err
   | inr reservations =>
       match usedOfReservations sequentialIDTag reservations [] with
       | inl err => Fail err
       | inr used => Ret (lowestFree used)
       end
   end).
Proof.
  unfold findAvailableNumberInInstanceGroup, bind, perform, groupFilters.
  destruct (EC2_DescribeInstances c t _) as [err|rs]; [reflexivity|].
  destruct (usedOfReservations sequentialIDTag rs []); reflexivity.
Qed.

Example lowestFree_1_2_4 : lowestFree [1; 2; 4] = 3.
Proof. reflexivity. Qed.

Example lowestFree_1_2_3 : lowestFree [1; 2; 3] = 4.
Proof. reflexivity. Qed.

Example lowestFree_empty : lowestFree [] = 1.
Proof. reflexivity. Qed.

(** When the sequential IDs observed on the peers of the group are positive
    and pairwise distinct, [findAvailableNumberInInstanceGroup] returns the
    lowest positive integer that is not among them. *)
Theorem findAvailableNumber_lowest_free
    (c : World) (t : trace) (instanceGroup groupTag sequentialIDTag : string)
    (reservations : list Reservation) (used : list Z) :
  EC2_DescribeInstances c t (groupFilters instanceGroup groupTag) = inr reservations ->
  usedOfReservations sequentialIDTag reservations [] = inr used ->
  NoDup used ->
  (forall x, In x used -> 0 < x) ->
  exists r,
    snd (findAvailableNumberInInstanceGroup c instanceGroup groupTag sequentialIDTag t) = Ret r
    /\ LowestFree used r.
Proof.
  intros Hq Hu Hn Hpos. exists (lowestFree used).
  rewrite findAvailableNumberInInstanceGroup_eq, Hq, Hu. simpl.
  split; [reflexivity|]. now apply lowestFree_spec.
Qed.

(** Peers with the IDs 4, 1 and 2: the next ID is 3. *)
Lemma findAvailableNumber_lowest_free_witness :
  exists r,
    snd (findAvailableNumberInInstanceGroup
           (instanceWorld "eu-west-1a" "i-0123456789abcdef0" (fun _ => throttled)
              (inr []) (groupOf "4" "1" "2"))
           "web" "ahs:instance-group" "ahs:instance-id" []) = Ret r
    /\ LowestFree [4; 1; 2] r.
Proof.
  apply (@findAvailableNumber_lowest_free _ _ _ _ _
           [ {| Instances := [ peer "i-0aaa0000000000001"
                                 [("Name", "web"); ("ahs:instance-id", "4")];
                               peer "i-0aaa0000000000002" [("ahs:instance-id", "1")] ] |};
             {| Instances := [ peer "i-0aaa0000000000003"
                                 [("ahs:instance-id", "2"); ("Name", "web")] ] |} ]).
  - reflexivity.
  - reflexivity.
  - repeat constructor; simpl; intuition lia.
  - simpl; intuition lia.
Defined.

(** With the IDs 1, 1 and 2 observed the function returns 2, and with 0, 1
    and 2 observed it returns 1; both are taken. *)
Lemma findAvailableNumber_not_lowest_free :
  (snd (findAvailableNumberInInstanceGroup
          (instanceWorld "eu-west-1a" "i-0123456789abcdef0" (fun _ => throttled)
             (inr []) (groupOf "1" "1" "2"))
          "web" "ahs:instance-group" "ahs:instance-id" []) = Ret 2
   /\ ~ LowestFree [1; 1; 2] 2)
  /\
  (snd (findAvailableNumberInInstanceGroup
          (instanceWorld "eu-west-1a" "i-0123456789abcdef0" (fun _ => throttled)
             (inr []) (groupOf "0" "1" "2"))
          "web" "ahs:instance-group" "ahs:instance-id" []) = Ret 1
   /\ ~ LowestFree [0; 1; 2] 1).
Proof.
  split; (split; [reflexivity|]); intros (_ & Hnot & _); apply Hnot; simpl; tauto.
Qed.

(** C10: whenever [findAvailableNumberInInstanceGroup] succeeds, whatever
    integers were observed (zero, negative or repeated ones included), the
    ID it returns is at least 1 and at most the number of observed entries
    plus 1. *)
Theorem findAvailableNumber_bounds
    (c : World) (t : trace) (instanceGroup groupTag sequentialIDTag : string) (r : Z) :
  snd (findAvailableNumberInInstanceGroup c instanceGroup groupTag sequentialIDTag t) = Ret r ->
  exists reservations used,
    EC2_DescribeInstances c t (groupFilters instanceGroup groupTag) = inr reservations
    /\ usedOfReservations sequentialIDTag reservations [] = inr used
    /\ 1 <= r <= Z.of_nat (List.length used) + 1.
Proof.
  rewrite findAvailableNumberInInstanceGroup_eq. simpl.
  destruct (EC2_DescribeInstances c t _) as [err|rs]; [discriminate|].
  destruct (usedOfReservations sequentialIDTag rs []) as [err|used] eqn:Hu; [discriminate|].
  intros [= <-]. exists rs, used. repeat split; try assumption; apply lowestFree_bounds.
Qed.

(** Peers with the entries 0, -3 and 0: the function returns 1. *)
Lemma findAvailableNumber_bounds_witness :
  exists reservations used,
    EC2_DescribeInstances
      (instanceWorld "eu-west-1a" "i-0123456789abcdef0" (fun _ => throttled)
         (inr []) (groupOf "0" "-3" "0"))
      [] (groupFilters "web" "ahs:instance-group") = inr reservations
    /\ usedOfReservations "ahs:instance-id" reservations [] = inr used
    /\ 1 <= 1 <= Z.of_nat (List.length used) + 1.
Proof.
  apply (@findAvailableNumber_bounds
           (instanceWorld "eu-west-1a" "i-0123456789abcdef0" (fun _ => throttled)
              (inr []) (groupOf "0" "-3" "0"))
           [] "web" "ahs:instance-group" "ahs:instance-id" 1).
  reflexivity.
Defined.

(* ================================================================== *)
(** ** Integers and slices *)

Lemma wrap_id z : isInt z -> wrap z = z.
Proof.
  unfold isInt, wrap, minInt, maxInt.
  change (2 ^ 63) with 9223372036854775808.
  change (2 ^ 64) with 18446744073709551616.
  intros H. rewrite Z.mod_small; lia.
Qed.

Lemma wrap_over z : maxInt < z <= maxInt + 2 ^ 63 -> wrap z = z - 2 ^ 64.
Proof.
  unfold wrap, maxInt.
  change (2 ^ 63) with 9223372036854775808.
  change (2 ^ 64) with 18446744073709551616.
  intros H.
  replace (z + 9223372036854775808)
    with (z - 9223372036854775808 + 1 * 18446744073709551616) by lia.
  rewrite Z.mod_add by lia. rewrite Z.mod_small; lia.
Qed.

Lemma len_nonneg s : 0 <= len s.
Proof. unfold len. lia. Qed.

Lemma slice_some s lo hi r :
  slice s lo hi = Some r ->
  0 <= lo /\ lo <= hi /\ hi <= len s
  /\ r = substring (Z.to_nat lo) (Z.to_nat (hi - lo)) s.
Proof.
  unfold slice.
  destruct (Z.leb_spec 0 lo), (Z.leb_spec lo hi), (Z.leb_spec hi (len s));
    simpl; intros [= <-]; auto.
Qed.

Lemma slice_in_bounds s lo hi :
  0 <= lo -> lo <= hi -> hi <= len s ->
  slice s lo hi = Some (substring (Z.to_nat lo) (Z.to_nat (hi - lo)) s).
Proof.
  intros H1 H2 H3. unfold slice.
  destruct (Z.leb_spec 0 lo), (Z.leb_spec lo hi), (Z.leb_spec hi (len s));
    simpl; try lia; reflexivity.
Qed.

Lemma slice_low_negative s lo hi : lo < 0 -> slice s lo hi = None.
Proof.
  intros H. unfold slice. destruct (Z.leb_spec 0 lo); [lia|reflexivity].
Qed.

Lemma slice_high_beyond s lo hi : len s < hi -> slice s lo hi = None.
Proof.
  intros H. unfold slice.
  destruct (Z.leb_spec hi (len s)); [lia|]. now rewrite andb_false_r.
Qed.

Lemma slice_reversed s lo hi : hi < lo -> slice s lo hi = None.
Proof.
  intros H. unfold slice.
  destruct (Z.leb_spec lo hi); [lia|]. now rewrite andb_false_r.
Qed.

Lemma length_append a b :
  String.length (a +++ b) = (String.length a + String.length b)%nat.
Proof. induction a; simpl; congruence. Qed.

Lemma substring_all b : substring 0 (String.length b) b = b.
Proof. induction b; simpl; congruence. Qed.

Lemma substring_append_tail a b :
  substring (String.length a) (String.length b) (a +++ b) = b.
Proof. induction a; simpl; [apply substring_all|assumption]. Qed.

Lemma length_substring s :
  forall n m, (n + m <= String.length s)%nat -> String.length (substring n m s) = m.
Proof.
  induction s as [|ch s IH]; intros n m H; simpl in *.
  - destruct n, m; simpl; lia.
  - destruct n.
    + destruct m; simpl; [reflexivity|]. f_equal. apply IH. lia.
    + apply IH. lia.
Qed.

(* ================================================================== *)
(** ** The instance-ID strategy *)

(** C3: the call of the specification's example, base "web", instance ID
    "i-0123456789abcdef0", separator "-" and length 5, does not return
    "web-01234": [base[len(base)-length:]] is [base[-2:]] and the call panics. *)
Theorem computeHostnameWithInstanceID_web_panics :
  computeHostnameWithInstanceID "web" "i-0123456789abcdef0" "-" 5 = Panic.
Proof. reflexivity. Qed.

(** With a base of at least five bytes the same instance ID gives the
    suffix "01234". *)
Example computeHostnameWithInstanceID_webby :
  computeHostnameWithInstanceID "webby" "i-0123456789abcdef0" "-" 5 = Ret "webby-01234".
Proof. reflexivity. Qed.

(** C4: a length that exceeds the usable part of the instance ID (its bytes
    after the first two) makes [computeHostnameWithInstanceID] panic; no
    error value is returned. *)
Theorem computeHostnameWithInstanceID_long_suffix_panics
    (base instanceID separator : string) (length : Z) :
  isInt length ->
  len instanceID - 2 < length ->
  computeHostnameWithInstanceID base instanceID separator length = Panic.
Proof.
  intros Hint Hlong. unfold computeHostnameWithInstanceID.
  destruct (sliceFrom base (sub (len base) length)); [|reflexivity].
  assert (slice instanceID 2 (add 2 length) = None) as ->; [|reflexivity].
  unfold add. destruct (Z_le_gt_dec (2 + length) maxInt) as [Hfit|Hover].
  - rewrite wrap_id.
    + apply slice_high_beyond. lia.
    + unfold isInt in *. pose proof (len_nonneg instanceID). unfold minInt in *. lia.
  - rewrite wrap_over.
    + apply slice_reversed. unfold isInt, maxInt in *.
      change (2 ^ 63) with 9223372036854775808 in *.
      change (2 ^ 64) with 18446744073709551616. lia.
    + unfold isInt, maxInt in *.
      change (2 ^ 63) with 9223372036854775808 in *. lia.
Qed.

Lemma computeHostnameWithInstanceID_long_suffix_panics_witness :
  computeHostnameWithInstanceID "webserver" "i-0123" "-" 5 = Panic.
Proof.
  apply computeHostnameWithInstanceID_long_suffix_panics.
  - unfold isInt, minInt, maxInt. simpl. lia.
  - vm_compute. reflexivity.
Defined.

(** C6: on a base shorter than the requested length the strategy neither
    returns the base nor appends the suffix: it panics. *)
Theorem computeHostnameWithInstanceID_short_base_panics
    (base instanceID separator : string) (length : Z) :
  isInt length ->
  len base < length ->
  computeHostnameWithInstanceID base instanceID separator length = Panic.
Proof.
  intros Hint Hshort. unfold computeHostnameWithInstanceID.
  assert (sliceFrom base (sub (len base) length) = None) as ->; [|reflexivity].
  unfold sliceFrom, sub. rewrite wrap_id.
  - apply slice_low_negative. lia.
  - pose proof (len_nonneg base). unfold isInt, minInt, maxInt in *.
    change (2 ^ 63) with 9223372036854775808 in *. lia.
Qed.

Lemma computeHostnameWithInstanceID_short_base_panics_witness :
  computeHostnameWithInstanceID "db" "i-0fedcba9876543210" "." 5 = Panic.
Proof.
  apply computeHostnameWithInstanceID_short_base_panics.
  - unfold isInt, minInt, maxInt. simpl. lia.
  - vm_compute. reflexivity.
Defined.

(** Where both slices are in bounds the strategy does what section 4.3
    describes: the base is returned when it ends with the suffix, and the
    suffix is appended otherwise. *)
Lemma computeHostnameWithInstanceID_in_bounds
    (base instanceID separator : string) (length : Z) :
  0 <= length -> length <= len base -> 2 + length <= len instanceID ->
  isInt (len base) -> isInt (len instanceID) ->
  exists tail suffix,
    sliceFrom base (len base - length) = Some tail
    /\ slice instanceID 2 (2 + length) = Some suffix
    /\ computeHostnameWithInstanceID base instanceID separator length =
       Ret (if String.eqb tail suffix then base else base +++ separator +++ suffix).
Proof.
  intros H0 Hb Hi Hlenb Hlen. unfold computeHostnameWithInstanceID, sub, add.
  pose proof (len_nonneg base).
  assert (isInt length) as Hl by (unfold isInt, minInt, maxInt in *; lia).
  rewrite !wrap_id.
  - unfold sliceFrom. rewrite (@slice_in_bounds base) by lia.
    rewrite (@slice_in_bounds instanceID) by lia.
    do 2 eexists. split; [reflexivity|]. split; [reflexivity|].
    destruct (String.eqb _ _); reflexivity.
  - unfold isInt, minInt, maxInt in *. lia.
  - unfold isInt, minInt, maxInt in *. lia.
Qed.

(** Running the strategy on a hostname it returned gives that hostname
    back. *)
Lemma computeHostnameWithInstanceID_idempotent
    (base instanceID separator hostname : string) (length : Z) :
  isInt length -> isInt (len hostname) ->
  computeHostnameWithInstanceID base instanceID separator length = Ret hostname ->
  computeHostnameWithInstanceID hostname instanceID separator length = Ret hostname.
Proof.
  intros Hl Hh Hrun. pose proof Hrun as Hrun0.
  unfold computeHostnameWithInstanceID in Hrun.
  destruct (sliceFrom base (sub (len base) length)) as [tail|] eqn:Et; [|discriminate].
  destruct (slice instanceID 2 (add 2 length)) as [suffix|] eqn:Es; [|discriminate].
  destruct (String.eqb tail suffix) eqn:Eq.
  - injection Hrun as <-. exact Hrun0.
  - injection Hrun as <-.
    apply slice_some in Es. destruct Es as (_ & Hlo & Hhi & ->).
    assert (add 2 length = 2 + length) as Hadd.
    { unfold add. destruct (Z_le_gt_dec (2 + length) maxInt) as [Hfit|Hover].
      - apply wrap_id. unfold isInt, minInt, maxInt in *. lia.
      - exfalso. unfold add in Hlo. rewrite wrap_over in Hlo.
        + unfold isInt, maxInt in *.
          change (2 ^ 63) with 9223372036854775808 in *.
          change (2 ^ 64) with 18446744073709551616 in *. lia.
        + unfold isInt, maxInt in *.
          change (2 ^ 63) with 9223372036854775808 in *. lia. }
    rewrite Hadd in *.
    set (suffix := substring (Z.to_nat 2) (Z.to_nat (2 + length - 2)) instanceID) in *.
    assert (String.length suffix = Z.to_nat length) as Hsl.
    { unfold suffix. rewrite length_substring; [f_equal; lia|].
      unfold len in Hhi. lia. }
    unfold computeHostnameWithInstanceID.
    rewrite Hadd. rewrite (@slice_in_bounds instanceID 2 (2 + length)) by lia.
    fold suffix.
    assert (sliceFrom (base +++ separator +++ suffix)
              (sub (len (base +++ separator +++ suffix)) length) = Some suffix) as ->.
    { unfold sliceFrom, sub.
      assert (len (base +++ separator +++ suffix)
              = len base + len separator + length) as Hlen.
      { unfold len. rewrite !length_append, Hsl. lia. }
      pose proof (len_nonneg base). pose proof (len_nonneg separator).
      rewrite wrap_id by (unfold isInt, minInt, maxInt in *; lia).
      rewrite slice_in_bounds by lia. f_equal.
      rewrite Hlen.
      replace (Z.to_nat (len base + len separator + length - length))
        with (String.length (base +++ separator)).
      2:{ rewrite length_append. unfold len. lia. }
      replace (Z.to_nat (len base + len separator + length
                         - (len base + len separator + length - length)))
        with (String.length suffix) by lia.
      replace (base +++ separator +++ suffix) with ((base +++ separator) +++ suffix).
      - apply substring_append_tail.
      - clear. induction base; simpl; congruence. }
    rewrite String.eqb_refl. reflexivity.
Qed.

(* ================================================================== *)
(** ** The group tag of the instance *)

Lemma findInstanceGroupTagValue_eq c groupTag instanceID t :
  findInstanceGroupTagValue c groupTag instanceID t =
  (t ++ [EC2DescribeTags (instanceTagFilters groupTag instanceID)],
   match EC2_DescribeTags c t (instanceTagFilters groupTag instanceID) with
   | inl err => Fail err
   | inr [tag] => Ret (DValue tag)
   | inr tags =>
       Fail (ErrorString
               ("Unexpected amount of tags retrieved : '"
                +++ strconv.Itoa (Z.of_nat (List.length tags)) +++ "',  expected 1"))
   end).
Proof.
  unfold findInstanceGroupTagValue, bind, perform, instanceTagFilters.
  destruct (EC2_DescribeTags c t _) as [err|tags]; [reflexivity|].
  destruct tags as [|tag [|tag' tags]]; try reflexivity.
  unfold fail. cbn [List.length]. 
  replace (Z.of_nat (S (S (List.length tags))) =? 1) with false; [reflexivity|].
  symmetry. apply Z.eqb_neq. lia.
Qed.

(** C8: [findInstanceGroupTagValue] returns a value exactly when the query
    yields exactly one tag, and the value is the one of that tag; when the
    query yields no tag or more than one, it fails with an error. *)
Theorem findInstanceGroupTagValue_exactly_one
    (c : World) (t : trace) (groupTag instanceID : string) :
  (forall v,
      snd (findInstanceGroupTagValue c groupTag instanceID t) = Ret v
      <-> exists tag,
            EC2_DescribeTags c t (instanceTagFilters groupTag instanceID) = inr [tag]
            /\ DValue tag = v)
  /\
  (forall tags,
      EC2_DescribeTags c t (instanceTagFilters groupTag instanceID) = inr tags ->
      List.length tags <> 1%nat ->
      exists err, snd (findInstanceGroupTagValue c groupTag instanceID t) = Fail err).
Proof.
  rewrite findInstanceGroupTagValue_eq. simpl. split.
  - intros v. split.
    + destruct (EC2_DescribeTags c t _) as [err|[|tag [|tag' tags]]]; try discriminate.
      intros [= <-]. now exists tag.
    + intros (tag & -> & <-). reflexivity.
  - intros tags -> Hlen.
    destruct tags as [|tag [|tag' tags]]; [eauto|now destruct Hlen|eauto].
Qed.

(* ================================================================== *)
(** ** Regular expressions: the matcher decides the language *)

Import regexp.

Lemma nullable_Lang r : nullable r = true <-> Lang r [].
Proof.
  split.
  - induction r; simpl; intros H; try discriminate.
    + constructor.
    + apply andb_true_iff in H. destruct H.
      change (@nil ascii) with (@nil ascii ++ []). constructor; auto.
    + apply orb_true_iff in H. destruct H; [apply LAltL|apply LAltR]; auto.
    + constructor.
  - intros H. remember [] as s eqn:Es.
    induction H; simpl; try reflexivity; try discriminate.
    + apply app_eq_nil in Es. destruct Es. rewrite IHLang1, IHLang2; auto.
    + rewrite IHLang; auto.
    + rewrite IHLang; auto. apply orb_true_r.
Qed.

Lemma deriv_sound c r : forall s, Lang (deriv c r) s -> Lang r (c :: s).
Proof.
  induction r; simpl; intros s H.
  - inversion H.
  - inversion H.
  - destruct (p c) eqn:Hp; inversion H; subst. now constructor.
  - destruct (nullable r1) eqn:Hn.
    + inversion H as [| | | ? ? ? H1 | ? ? ? H1 | |]; subst.
      * inversion H1; subst.
        change (c :: s1 ++ s2) with ((c :: s1) ++ s2). constructor; auto.
      * change (c :: s) with ([] ++ c :: s). constructor; auto.
        now apply nullable_Lang.
    + inversion H; subst.
      change (c :: s1 ++ s2) with ((c :: s1) ++ s2). constructor; auto.
  - inversion H; subst; [apply LAltL|apply LAltR]; auto.
  - inversion H; subst.
    change (c :: s1 ++ s2) with ((c :: s1) ++ s2). constructor; auto.
Qed.

Lemma deriv_complete c r s0 :
  Lang r s0 -> forall w, s0 = c :: w -> Lang (deriv c r) w.
Proof.
  induction 1 as [ | p ch Hp | r1 r2 s1 s2 H1 IH1 H2 IH2 | r1 r2 s H1 IH1
                 | r1 r2 s H2 IH2 | r | r s1 s2 H1 IH1 H2 IH2 ];
    intros w Es; simpl; try discriminate.
  - injection Es as -> <-. rewrite Hp. constructor.
  - destruct s1 as [|c1 s1]; simpl in Es.
    + subst s2. apply nullable_Lang in H1. rewrite H1. apply LAltR. auto.
    + injection Es as -> <-.
      destruct (nullable r1); [apply LAltL|]; constructor; auto.
  - apply LAltL. auto.
  - apply LAltR. auto.
  - destruct s1 as [|c1 s1]; simpl in Es.
    + subst s2. apply (IH2 w eq_refl).
    + injection Es as -> <-. constructor; auto.
Qed.

Lemma accepts_Lang s : forall r, accepts r s = true <-> Lang r s.
Proof.
  induction s as [|c s IH]; intros r; simpl.
  - apply nullable_Lang.
  - rewrite IH. split; [apply deriv_sound|].
    intros H. eapply deriv_complete; eauto.
Qed.

Lemma Lang_Eps s : Lang Eps s <-> s = [].
Proof. split; [inversion 1; auto|intros ->; constructor]. Qed.

Lemma Lang_Class p s : Lang (Class p) s <-> exists ch, s = [ch] /\ p ch = true.
Proof.
  split.
  - inversion 1; subst. eauto.
  - intros (ch & -> & H). now constructor.
Qed.

Lemma Lang_Cat r1 r2 s :
  Lang (Cat r1 r2) s <-> exists s1 s2, s = s1 ++ s2 /\ Lang r1 s1 /\ Lang r2 s2.
Proof.
  split.
  - inversion 1; subst. eauto.
  - intros (s1 & s2 & -> & H1 & H2). now constructor.
Qed.

Lemma Lang_Star_Class p s :
  Lang (Star (Class p)) s <-> Forall (fun ch => p ch = true) s.
Proof.
  split.
  - intros H. remember (Star (Class p)) as r eqn:Er.
    induction H; try discriminate; injection Er as ->.
    + constructor.
    + inversion H; subst. constructor; auto.
  - induction 1 as [|ch s Hp Hs IH].
    + constructor.
    + change (ch :: s) with ([ch] ++ s). constructor; [now constructor|assumption].
Qed.

Lemma Lang_Plus_Class p s :
  Lang (Plus (Class p)) s <-> s <> [] /\ Forall (fun ch => p ch = true) s.
Proof.
  unfold Plus. rewrite Lang_Cat. split.
  - intros (s1 & s2 & -> & H1 & H2).
    apply Lang_Class in H1. destruct H1 as (ch & -> & Hp).
    apply Lang_Star_Class in H2. split; [discriminate|now constructor].
  - intros [Hne H]. destruct H as [|ch s Hp Hs]; [congruence|].
    exists [ch], s. split; [reflexivity|]. split.
    + now constructor.
    + now apply Lang_Star_Class.
Qed.

Lemma Lang_any s : Lang (Star anyByte) s.
Proof.
  apply Lang_Star_Class. induction s; constructor; auto.
Qed.

(** [MatchString] looks for a word of the pattern anywhere in the text, or
    at its end when the pattern ends in [$]. *)
Lemma MatchString_iff re s :
  MatchString re s = true <->
  exists pre m post,
    bytes s = pre ++ m ++ post /\ Lang (body re) m
    /\ (endOfText re = true -> post = []).
Proof.
  unfold MatchString. rewrite accepts_Lang, Lang_Cat. split.
  - intros (pre & rest & E & _ & H).
    apply Lang_Cat in H. destruct H as (m & post & -> & Hm & Hp).
    exists pre, m, post. repeat split; auto.
    intros He. rewrite He in Hp. now apply Lang_Eps in Hp.
  - intros (pre & m & post & E & Hm & Hp).
    exists pre, (m ++ post). split; [assumption|]. split; [apply Lang_any|].
    apply Lang_Cat. exists m, post. repeat split; auto.
    destruct (endOfText re); [rewrite Hp by reflexivity; constructor|apply Lang_any].
Qed.

(* ================================================================== *)
(** ** Bytes of strings *)

Lemma bytes_append a b : bytes (a +++ b) = bytes a ++ bytes b.
Proof. unfold bytes. induction a; simpl; congruence. Qed.

Lemma bytes_inj a b : bytes a = bytes b -> a = b.
Proof.
  unfold bytes. intros H.
  rewrite <- (string_of_list_ascii_of_string a), <- (string_of_list_ascii_of_string b).
  now rewrite H.
Qed.

Lemma bytes_of_list l : bytes (string_of_list_ascii l) = l.
Proof. apply list_ascii_of_string_of_list_ascii. Qed.

Lemma append_assoc a b c : (a +++ b) +++ c = a +++ b +++ c.
Proof. induction a; simpl; congruence. Qed.

Lemma append_empty_r a : a +++ "" = a.
Proof. induction a; simpl; congruence. Qed.

(* ================================================================== *)
(** ** Region of an availability zone *)

Lemma hyphen_eq ch : hyphen ch = true <-> ch = "-"%char.
Proof. unfold hyphen. apply Ascii.eqb_eq. Qed.

Lemma azRe_Lang l :
  Lang (body azRe) l <->
  exists a b w d z,
    l = a :: b :: "-"%char :: w ++ "-"%char :: d :: z :: []
    /\ lower a = true /\ lower b = true
    /\ w <> [] /\ Forall (fun ch => lower ch = true) w
    /\ digit d = true /\ lower z = true.
Proof.
  cbn [azRe body]. split.
  - intros H.
    apply Lang_Cat in H. destruct H as (la & l1 & -> & Ha & H).
    apply Lang_Cat in H. destruct H as (lb & l2 & -> & Hb & H).
    apply Lang_Cat in H. destruct H as (lh & l3 & -> & Hh & H).
    apply Lang_Cat in H. destruct H as (w & l4 & -> & Hw & H).
    apply Lang_Cat in H. destruct H as (lh' & l5 & -> & Hh' & H).
    apply Lang_Cat in H. destruct H as (ld & lz & -> & Hd & Hz).
    apply Lang_Class in Ha, Hb, Hh, Hh', Hd, Hz.
    destruct Ha as (a & -> & Ha), Hb as (b & -> & Hb), Hh as (h & -> & Hh),
             Hh' as (h' & -> & Hh'), Hd as (d & -> & Hd), Hz as (z & -> & Hz).
    apply hyphen_eq in Hh, Hh'. subst h h'.
    apply Lang_Plus_Class in Hw. destruct Hw as [Hne Hw].
    exists a, b, w, d, z. simpl. repeat split; auto.
  - intros (a & b & w & d & z & -> & Ha & Hb & Hne & Hw & Hd & Hz).
    change (a :: b :: "-"%char :: w ++ "-"%char :: d :: z :: [])
      with ([a] ++ [b] ++ ["-"%char] ++ w ++ ["-"%char] ++ [d] ++ [z]).
    repeat (apply LCat); try (apply LClass; auto; now apply hyphen_eq).
    now apply Lang_Plus_Class.
Qed.

Lemma AZShape_Lang m : AZShape m <-> Lang (body azRe) (bytes m).
Proof.
  rewrite azRe_Lang. unfold AZShape. split.
  - intros (a & b & w & d & z & -> & Ha & Hb & Hne & Hw & Hd & Hz).
    exists a, b, (bytes w), d, z. repeat split; auto.
    + unfold bytes. simpl. do 3 f_equal.
      change (list_ascii_of_string (w +++ String "-" (String d (String z ""))))
        with (bytes (w +++ String "-" (String d (String z "")))).
      now rewrite bytes_append.
    + destruct w; [congruence|discriminate].
  - intros (a & b & w & d & z & E & Ha & Hb & Hne & Hw & Hd & Hz).
    exists a, b, (string_of_list_ascii w), d, z. repeat split; auto.
    + apply bytes_inj. rewrite E. unfold bytes. simpl. do 3 f_equal.
      change (list_ascii_of_string
                (string_of_list_ascii w +++ String "-" (String d (String z ""))))
        with (bytes (string_of_list_ascii w +++ String "-" (String d (String z "")))).
      now rewrite bytes_append, bytes_of_list.
    + destruct w; [congruence|discriminate].
    + unfold allOf. now rewrite bytes_of_list.
Qed.

(** Whether a text has the shape of an availability zone is decided by the
    matcher on the whole text. *)
Lemma AZShape_dec m : AZShape m <-> accepts (body azRe) (bytes m) = true.
Proof. rewrite accepts_Lang. apply AZShape_Lang. Qed.

Lemma MatchString_azRe az : MatchString azRe az = true <-> Contains AZShape az.
Proof.
  rewrite MatchString_iff. unfold Contains. split.
  - intros (pre & m & post & E & Hm & _).
    exists (string_of_list_ascii pre), (string_of_list_ascii m), (string_of_list_ascii post).
    split.
    + apply bytes_inj. now rewrite !bytes_append, !bytes_of_list.
    + apply AZShape_Lang. now rewrite bytes_of_list.
  - intros (pre & m & post & -> & Hm).
    exists (bytes pre), (bytes m), (bytes post). split; [|split].
    + now rewrite !bytes_append.
    + now apply AZShape_Lang.
    + discriminate.
Qed.

Lemma computeRegionFromAZ_eq az :
  computeRegionFromAZ az =
  if MatchString azRe az then Ret (dropLast az)
  else Fail (ErrorString
               ("Cannot compute region from invalid availability-zone '" +++ az +++ "'")).
Proof.
  unfold computeRegionFromAZ. destruct (MatchString azRe az) eqn:Hm; [|reflexivity].
  simpl. destruct az as [|ch az]; [discriminate Hm|].
  unfold sliceTo. rewrite slice_in_bounds.
  - unfold dropLast, len. do 2 f_equal. simpl String.length. lia.
  - lia.
  - unfold len. simpl String.length. lia.
  - lia.
Qed.

Example computeRegionFromAZ_eu_west_1a : computeRegionFromAZ "eu-west-1a" = Ret "eu-west-1".
Proof. reflexivity. Qed.

Example computeRegionFromAZ_invalid :
  computeRegionFromAZ "invalid" =
  Fail (ErrorString "Cannot compute region from invalid availability-zone 'invalid'").
Proof. reflexivity. Qed.

(** C7, as amended: [computeRegionFromAZ] returns its input without the
    final byte when the input contains a substring of the shape of an
    availability zone, and fails with the invalid-availability-zone error
    when it contains none; "eu-west-1a" yields "eu-west-1" and "invalid"
    fails. *)
Theorem computeRegionFromAZ_contains_shape :
  (forall az,
      (Contains AZShape az /\ computeRegionFromAZ az = Ret (dropLast az))
      \/
      (~ Contains AZShape az
       /\ computeRegionFromAZ az =
          Fail (ErrorString
                  ("Cannot compute region from invalid availability-zone '" +++ az +++ "'"))))
  /\ computeRegionFromAZ "eu-west-1a" = Ret "eu-west-1"
  /\ computeRegionFromAZ "invalid" =
     Fail (ErrorString "Cannot compute region from invalid availability-zone 'invalid'").
Proof.
  split; [|split; reflexivity].
  intros az. rewrite computeRegionFromAZ_eq.
  destruct (MatchString azRe az) eqn:Hm.
  - left. split; [now apply MatchString_azRe|reflexivity].
  - right. split; [|reflexivity].
    intros H. apply MatchString_azRe in H. congruence.
Qed.

(** C7 fails as stated: "us-gov-west-1a" and "xeu-west-1ab" do not have the
    shape of an availability zone, and [computeRegionFromAZ] accepts both. *)
Lemma computeRegionFromAZ_accepts_other_shapes :
  (~ AZShape "us-gov-west-1a"
   /\ computeRegionFromAZ "us-gov-west-1a" = Ret "us-gov-west-1")
  /\
  (~ AZShape "xeu-west-1ab"
   /\ computeRegionFromAZ "xeu-west-1ab" = Ret "xeu-west-1a").
Proof.
  split; (split; [|reflexivity]); rewrite AZShape_dec; vm_compute; discriminate.
Qed.

(* ================================================================== *)
(** ** Parsing decimal digits *)

Lemma isDigit_val ch : strconv.isDigit ch = true -> 0 <= strconv.digitVal ch <= 9.
Proof.
  unfold strconv.isDigit, strconv.digitVal. intros H.
  apply andb_true_iff in H. destruct H as [H1 H2].
  apply Z.leb_le in H1, H2. lia.
Qed.

Lemma isDigit_not_sign ch :
  strconv.isDigit ch = true -> Ascii.eqb ch "+" = false /\ Ascii.eqb ch "-" = false.
Proof.
  intros H. split.
  - destruct (Ascii.eqb_spec ch "+"); [subst; discriminate H|reflexivity].
  - destruct (Ascii.eqb_spec ch "-"); [subst; discriminate H|reflexivity].
Qed.

Lemma value_ge cs :
  forall n, 0 <= n -> Forall (fun ch => strconv.isDigit ch = true) cs ->
            n <= fold_left (fun n ch => n * 10 + strconv.digitVal ch) cs n.
Proof.
  induction cs as [|ch cs IH]; intros n Hn Hd; simpl; [lia|].
  inversion Hd as [|? ? Hc Hd']; subst. apply isDigit_val in Hc.
  etransitivity; [|apply IH; [lia|assumption]]. lia.
Qed.

Lemma parseUint_digits cs :
  forall n, 0 <= n <= strconv.maxUint64 ->
    Forall (fun ch => strconv.isDigit ch = true) cs ->
    strconv.parseUint n cs =
    let v := fold_left (fun n ch => n * 10 + strconv.digitVal ch) cs n in
    if v <=? strconv.maxUint64 then inr v else inl ErrRange.
Proof.
  induction cs as [|ch cs IH]; intros n Hn Hd; cbn [strconv.parseUint fold_left].
  - cbv zeta. destruct (Z.leb_spec n strconv.maxUint64); [reflexivity|lia].
  - inversion Hd as [|? ? Hc Hd']; subst. rewrite Hc. cbn [negb].
    pose proof (isDigit_val _ Hc) as Hv.
    pose proof (@value_ge cs (n * 10 + strconv.digitVal ch)) as Hge.
    change (strconv.maxUint64 / 10 + 1) with 1844674407370955162.
    unfold strconv.maxUint64 in *.
    change (2 ^ 64 - 1) with 18446744073709551615 in *.
    cbv zeta in *.
    destruct (Z.leb_spec 1844674407370955162 n).
    + destruct (Z.leb_spec
                  (fold_left (fun n ch => n * 10 + strconv.digitVal ch) cs
                     (n * 10 + strconv.digitVal ch)) 18446744073709551615);
        [|reflexivity].
      specialize (Hge ltac:(lia) Hd'). lia.
    + destruct (Z.ltb_spec 18446744073709551615 (n * 10 + strconv.digitVal ch)).
      * destruct (Z.leb_spec
                    (fold_left (fun n ch => n * 10 + strconv.digitVal ch) cs
                       (n * 10 + strconv.digitVal ch)) 18446744073709551615);
          [|reflexivity].
        specialize (Hge ltac:(lia) Hd'). lia.
      * rewrite IH by (auto; lia). reflexivity.
Qed.

(** [Atoi] on a non-empty text of digits: the number it denotes when that
    fits an [int], the range error otherwise. *)
Lemma Atoi_digits ds :
  ds <> "" -> allOf digit ds ->
  strconv.Atoi ds =
  if decimal ds <=? maxInt then (decimal ds, None)
  else (maxInt, Some (NumError "Atoi" ds ErrRange)).
Proof.
  intros Hne Hd. unfold strconv.Atoi, decimal. unfold allOf in Hd.
  destruct (bytes ds) as [|ch rest] eqn:Eb.
  - destruct ds; [congruence|discriminate Eb].
  - inversion Hd as [|? ? Hc Hrest]; subst.
    destruct (isDigit_not_sign _ Hc) as [-> ->]. cbn [orb negb andb].
    rewrite parseUint_digits; [|unfold strconv.maxUint64; simpl; lia|assumption].
    cbv zeta.
    set (v := fold_left (fun n ch0 => n * 10 + strconv.digitVal ch0) (ch :: rest) 0).
    unfold strconv.maxUint64, maxInt.
    change (2 ^ 64 - 1) with 18446744073709551615.
    change (2 ^ 63 - 1) with 9223372036854775807.
    change (2 ^ 63) with 9223372036854775808.
    destruct (Z.leb_spec v 18446744073709551615),
             (Z.leb_spec v 9223372036854775807); try lia.
    + destruct (Z.leb_spec 9223372036854775808 v); [lia|reflexivity].
    + destruct (Z.leb_spec 9223372036854775808 v); [reflexivity|lia].
    + reflexivity.
Qed.

(* ================================================================== *)
(** ** Sequential allocation: a base that already carries its ID *)

Lemma trailingDigits_run l :
  forall x rest acc,
    Forall (fun ch => digit ch = true) l -> digit x = false ->
    trailingDigits (l ++ x :: rest) acc = rev l ++ acc.
Proof.
  induction l as [|ch l IH]; intros x rest acc Hd Hx; simpl.
  - now rewrite Hx.
  - inversion Hd as [|? ? Hc Hd']; subst. rewrite Hc.
    rewrite IH by assumption. now rewrite <- app_assoc.
Qed.

(** The group of [sequentialRe] does not depend on the match chosen: for
    every way of reading [base] as a prefix, a hyphen and digits, it is
    those digits. *)
Lemma sequential_group_unique base ds :
  NumericSuffix base ds -> sequentialGroup base = ds.
Proof.
  intros ((pre & ->) & _ & Hd). unfold sequentialGroup.
  rewrite !bytes_append, !rev_app_distr. cbn [bytes list_ascii_of_string rev app].
  rewrite <- app_assoc. cbn [app].
  rewrite trailingDigits_run.
  - rewrite rev_involutive, app_nil_r. apply string_of_list_ascii_of_string.
  - apply Forall_rev. exact Hd.
  - reflexivity.
Qed.

Lemma MatchString_sequentialRe base :
  MatchString sequentialRe base = true <-> exists ds, NumericSuffix base ds.
Proof.
  rewrite MatchString_iff. cbn [sequentialRe body endOfText]. split.
  - intros (pre & m & post & E & Hm & Hp). rewrite (Hp eq_refl), app_nil_r in E.
    apply Lang_Cat in Hm. destruct Hm as (dots & m1 & -> & _ & Hm).
    apply Lang_Cat in Hm. destruct Hm as (h & ds & -> & Hh & Hds).
    apply Lang_Class in Hh. destruct Hh as (ch & -> & Hh). apply hyphen_eq in Hh. subst ch.
    apply Lang_Plus_Class in Hds. destruct Hds as [Hne Hds].
    exists (string_of_list_ascii ds). split; [|split].
    + exists (string_of_list_ascii (pre ++ dots)). apply bytes_inj.
      rewrite E, !bytes_append, !bytes_of_list, <- !app_assoc. reflexivity.
    + destruct ds; [congruence|discriminate].
    + unfold allOf. now rewrite bytes_of_list.
  - intros (ds & (pre & ->) & Hne & Hd).
    exists (bytes pre), ("-"%char :: bytes ds), []. split; [|split].
    + rewrite !bytes_append, app_nil_r. reflexivity.
    + apply Lang_Cat. exists [], ("-"%char :: bytes ds). split; [reflexivity|].
      split; [constructor|].
      change ("-"%char :: bytes ds) with (["-"%char] ++ bytes ds).
      constructor; [now constructor|].
      apply Lang_Plus_Class. split; [|exact Hd].
      destruct ds; [congruence|discriminate].
    + reflexivity.
Qed.

(** C5, as amended: on a base that ends in a hyphen and digits,
    [computeSequentialHostname] sends no query; it returns the base unchanged
    together with the number the digits denote when that number fits an
    [int], and the range error of [strconv.Atoi] when it does not. *)
Theorem computeSequentialHostname_keeps_numbered_base
    (c : World) (t : trace)
    (base instanceID separator groupTag sequentialIDTag ds : string) :
  NumericSuffix base ds ->
  computeSequentialHostname c base instanceID separator groupTag sequentialIDTag t =
  (t, if decimal ds <=? maxInt then Ret (base, decimal ds)
      else Fail (NumError "Atoi" ds ErrRange)).
Proof.
  intros Hs. unfold computeSequentialHostname.
  assert (MatchString sequentialRe base = true) as ->
    by (apply MatchString_sequentialRe; eauto).
  rewrite (sequential_group_unique Hs).
  destruct Hs as (_ & Hne & Hd). rewrite Atoi_digits by assumption.
  destruct (decimal ds <=? maxInt); reflexivity.
Qed.

(** The base "web-7" is kept, with the sequential ID 7, and the trace stays
    empty. *)
Lemma computeSequentialHostname_keeps_numbered_base_witness :
  computeSequentialHostname
    (instanceWorld "eu-west-1a" "i-0123456789abcdef0" (fun _ => throttled)
       (inr []) throttled)
    "web-7" "i-0123456789abcdef0" "-" "ahs:instance-group" "ahs:instance-id" []
  = ([], Ret ("web-7", 7)).
Proof.
  apply (@computeSequentialHostname_keeps_numbered_base _ _ "web-7" _ _ _ _ "7").
  split; [|split].
  - exists "web". reflexivity.
  - discriminate.
  - repeat constructor.
Defined.

(** C5 fails as stated: the base "web-9223372036854775808" ends in a
    hyphen and digits, and the call returns no pair but the range error. *)
Lemma computeSequentialHostname_number_out_of_range :
  NumericSuffix "web-9223372036854775808" "9223372036854775808"
  /\ computeSequentialHostname
       (instanceWorld "eu-west-1a" "i-0123456789abcdef0" (fun _ => throttled)
          (inr []) throttled)
       "web-9223372036854775808" "i-0123456789abcdef0" "-"
       "ahs:instance-group" "ahs:instance-id" []
     = ([], Fail (NumError "Atoi" "9223372036854775808" ErrRange)).
Proof.
  split; [|reflexivity].
  split; [|split].
  - exists "web". reflexivity.
  - discriminate.
  - repeat constructor.
Qed.

(* ================================================================== *)
(** ** The retry loop of [run] *)

Lemma Duration_backoffAt k :
  backoff.Duration (backoffAt k) = (delay k, backoffAt (S k)).
Proof. reflexivity. Qed.

Lemma delay_eq k :
  delay k = Z.min 120000000000 (100000000 * 2 ^ Z.of_nat k).
Proof. reflexivity. Qed.

(** No delay of the backoff equals the 60 seconds [run] compares with. *)
Lemma delay_never_60s k : delay k <> 60 * time.Second.
Proof.
  rewrite delay_eq. change (60 * time.Second) with 60000000000.
  destruct (Nat.le_gt_cases k 9) as [Hk|Hk].
  - assert (2 ^ Z.of_nat k <= 2 ^ 9) by (apply Z.pow_le_mono_r; lia).
    change (2 ^ 9) with 512 in *. lia.
  - assert (2 ^ 10 <= 2 ^ Z.of_nat k) by (apply Z.pow_le_mono_r; lia).
    change (2 ^ 10) with 1024 in *. lia.
Qed.

(** The delay is below the cap of 120 seconds for the first eleven failures
    and equals it from the twelfth on. *)
Lemma delay_below_cap k : (k <= 10)%nat -> delay k < 120 * time.Second.
Proof.
  intros Hk. rewrite delay_eq. change (120 * time.Second) with 120000000000.
  assert (2 ^ Z.of_nat k <= 2 ^ 10) by (apply Z.pow_le_mono_r; lia).
  change (2 ^ 10) with 1024 in *. lia.
Qed.

Lemma delay_at_cap k : (11 <= k)%nat -> delay k = 120 * time.Second.
Proof.
  intros Hk. rewrite delay_eq. change (120 * time.Second) with 120000000000.
  assert (2 ^ 11 <= 2 ^ Z.of_nat k) by (apply Z.pow_le_mono_r; lia).
  change (2 ^ 11) with 2048 in *. lia.
Qed.

Lemma sleeps_app t1 t2 : sleeps (t1 ++ t2) = sleeps t1 ++ sleeps t2.
Proof.
  induction t1 as [|e t1 IH]; simpl; [reflexivity|].
  destruct e; simpl; congruence.
Qed.

Lemma getBaseFromInputTag_refused c inputTag instanceID t err :
  EC2_DescribeInstances c t
    [ {| Name := "instance-id"; ec2.Values := [instanceID] |} ] = inl err ->
  getBaseFromInputTag c inputTag instanceID t =
  (t ++ [EC2DescribeInstances [ {| Name := "instance-id"; ec2.Values := [instanceID] |} ]],
   Fail err).
Proof.
  intros H. unfold getBaseFromInputTag, bind, perform. now rewrite H.
Qed.

(** One failed attempt whose delay differs from [giveUp]: the loop sleeps
    and goes on. *)
Lemma fetchBase_step c giveUp fuel k inputTag instanceID t err :
  EC2_DescribeInstances c t
    [ {| Name := "instance-id"; ec2.Values := [instanceID] |} ] = inl err ->
  delay k <> giveUp ->
  fetchBase c giveUp (S fuel) (backoffAt k) inputTag instanceID t =
  fetchBase c giveUp fuel (backoffAt (S k)) inputTag instanceID
    (t ++ [EC2DescribeInstances [ {| Name := "instance-id"; ec2.Values := [instanceID] |} ];
           Sleep (delay k)]).
Proof.
  intros Hq Hd. cbn [fetchBase].
  rewrite (@getBaseFromInputTag_refused c inputTag instanceID t err Hq), Duration_backoffAt.
  destruct (Z.eqb_spec (delay k) giveUp) as [E|_]; [contradiction|].
  unfold bind, perform. rewrite <- app_assoc. reflexivity.
Qed.

Lemma fetchBase_spins c inputTag instanceID :
  (forall t filters, exists err, EC2_DescribeInstances c t filters = inl err) ->
  forall fuel k t,
    snd (fetchBase c (60 * time.Second) fuel (backoffAt k) inputTag instanceID t) = Spinning
    /\ sleeps (fst (fetchBase c (60 * time.Second) fuel (backoffAt k) inputTag instanceID t))
       = sleeps t ++ map delay (seq k fuel).
Proof.
  intros Hfail. induction fuel as [|fuel IH]; intros k t.
  - simpl. now rewrite app_nil_r.
  - destruct (Hfail t [ {| Name := "instance-id"; ec2.Values := [instanceID] |} ])
      as [err Hq].
    rewrite (@fetchBase_step c _ fuel k inputTag instanceID t err Hq (@delay_never_60s k)).
    destruct (IH (S k)
                (t ++ [EC2DescribeInstances
                         [ {| Name := "instance-id"; ec2.Values := [instanceID] |} ];
                       Sleep (delay k)])) as [Ho Hs].
    split; [exact Ho|]. rewrite Hs, sleeps_app. simpl. now rewrite <- app_assoc.
Qed.

(** C1: when every attempt to fetch the input tag fails, the loop of [run]
    never surfaces the error. Whatever number of attempts is followed, it is
    still retrying, and it has slept the delays of the backoff one after
    the other, the cap of 120 seconds included: the delay is compared with
    60 seconds, which the backoff never returns. *)
Theorem fetchBase_retries_forever
    (c : World) (inputTag instanceID : string) (fuel : nat) (t : trace) :
  (forall t' filters, exists err, EC2_DescribeInstances c t' filters = inl err) ->
  snd (fetchBase c (60 * time.Second) fuel runBackoff inputTag instanceID t) = Spinning
  /\ sleeps (fst (fetchBase c (60 * time.Second) fuel runBackoff inputTag instanceID t))
     = sleeps t ++ map delay (seq 0 fuel).
Proof.
  intros Hfail. apply (@fetchBase_spins c inputTag instanceID Hfail fuel 0%nat t).
Qed.

(** Fourteen failed attempts: the cap of 120 seconds has been slept three
    times and the loop is still retrying. *)
Lemma fetchBase_retries_forever_witness :
  snd (fetchBase throttledWorld (60 * time.Second) 14 runBackoff
         "Name" "i-0123456789abcdef0" []) = Spinning
  /\ sleeps (fst (fetchBase throttledWorld (60 * time.Second) 14 runBackoff
                    "Name" "i-0123456789abcdef0" []))
     = [] ++ [ 100000000; 200000000; 400000000; 800000000; 1600000000; 3200000000;
               6400000000; 12800000000; 25600000000; 51200000000; 102400000000;
               120000000000; 120000000000; 120000000000 ].
Proof.
  apply (@fetchBase_retries_forever throttledWorld "Name" "i-0123456789abcdef0" 14 []).
  intros t' filters. exists (APIError "RequestLimitExceeded: Request limit exceeded.").
  destruct filters as [|f filters]; simpl; [reflexivity|].
  destruct (String.eqb (Name f) "instance-id"); reflexivity.
Defined.

(** Had the loop compared the delay with the cap of the backoff, it would
    have surfaced the error at the twelfth failure, after sleeping the
    eleven delays below the cap. *)
Lemma fetchBase_at_cap_gives_up c inputTag instanceID :
  (forall t filters, exists err, EC2_DescribeInstances c t filters = inl err) ->
  forall n k fuel t,
    (k + n = 11)%nat -> (n < fuel)%nat ->
    (exists err,
        snd (fetchBase c (120 * time.Second) fuel (backoffAt k) inputTag instanceID t)
        = Fail (ExitError err 1))
    /\ sleeps (fst (fetchBase c (120 * time.Second) fuel (backoffAt k) inputTag instanceID t))
       = sleeps t ++ map delay (seq k n).
Proof.
  intros Hfail. induction n as [|n IH]; intros k fuel t Hk Hfuel.
  - destruct fuel as [|fuel]; [lia|].
    destruct (Hfail t [ {| Name := "instance-id"; ec2.Values := [instanceID] |} ])
      as [err Hq].
    cbn [fetchBase].
    rewrite (@getBaseFromInputTag_refused c inputTag instanceID t err Hq), Duration_backoffAt.
    rewrite (@delay_at_cap k) by lia. rewrite Z.eqb_refl. simpl.
    split; [eauto|]. rewrite sleeps_app. simpl. reflexivity.
  - destruct fuel as [|fuel]; [lia|].
    destruct (Hfail t [ {| Name := "instance-id"; ec2.Values := [instanceID] |} ])
      as [err Hq].
    assert (delay k <> 120 * time.Second) as Hd
      by (pose proof (@delay_below_cap k); lia).
    rewrite (@fetchBase_step c _ fuel k inputTag instanceID t err Hq Hd).
    destruct (IH (S k) fuel
                (t ++ [EC2DescribeInstances
                         [ {| Name := "instance-id"; ec2.Values := [instanceID] |} ];
                       Sleep (delay k)])) as [Ho Hs]; [lia|lia|].
    split; [exact Ho|]. rewrite Hs, sleeps_app. simpl. now rewrite <- app_assoc.
Qed.

(** In [run] itself: on an instance whose every query is refused, [run] is
    still in the loop after any number of attempts. *)
Lemma run_throttled_never_exits fuel :
  snd (run throttledWorld sequentialCtx fuel []) = Spinning.
Proof.
  assert (forall t' filters,
             exists err, EC2_DescribeInstances throttledWorld t' filters = inl err)
    as Hfail.
  { intros t' filters. exists (APIError "RequestLimitExceeded: Request limit exceeded.").
    destruct filters as [|f filters]; simpl; [reflexivity|].
    destruct (String.eqb (Name f) "instance-id"); reflexivity. }
  destruct (@fetchBase_spins throttledWorld "Name" "i-0123456789abcdef0" Hfail fuel 0%nat
              [MDSAvailable; MDSGetMetadata "placement/availability-zone";
               MDSGetMetadata "instance-id"]) as [H _].
  change (backoffAt 0) with runBackoff in H.
  unfold run, resolve, bind, orExit, getAWSMDSClient, getInstanceAZ, getInstanceID,
    getAWSEC2Client, perform, ofSum, lift, ret, fail.
  cbn -[fetchBase Z.mul computeRegionFromAZ MatchString].
  rewrite computeRegionFromAZ_eu_west_1a.
  assert (MatchString regionRe "eu-west-1" = true) as -> by reflexivity.
  cbn -[fetchBase Z.mul].
  destruct (fetchBase _ _ _ _ _ _ _) as [tf o]. simpl in H. subst o. reflexivity.
Qed.

(* ================================================================== *)
(** ** The order of reads and writes in [run] *)

Lemma ReadsOnly_ret A (a : A) : ReadsOnly (ret a).
Proof. intros t. exists []. simpl. now rewrite app_nil_r. Qed.

Lemma ReadsOnly_fail A e : ReadsOnly (@fail A e).
Proof. intros t. exists []. simpl. now rewrite app_nil_r. Qed.

Lemma ReadsOnly_lift A (o : outcome A) : ReadsOnly (lift o).
Proof. intros t. exists []. simpl. now rewrite app_nil_r. Qed.

Lemma ReadsOnly_perform A e (answer : trace -> A) :
  isWrite e = false -> ReadsOnly (perform e answer).
Proof. intros H t. exists [e]. simpl. split; [reflexivity|]. now constructor. Qed.

Lemma ReadsOnly_bind A B (m : M A) (k : A -> M B) :
  ReadsOnly m -> (forall a, ReadsOnly (k a)) -> ReadsOnly (bind m k).
Proof.
  intros Hm Hk t. destruct (Hm t) as (rs & E & F). unfold bind.
  destruct (m t) as [t1 o]. simpl in E. subst t1.
  destruct o as [a| | |]; try (exists rs; split; [reflexivity|assumption]).
  destruct (Hk a (t ++ rs)) as (rs' & E' & F').
  exists (rs ++ rs'). rewrite E', app_assoc. split; [reflexivity|].
  apply Forall_app. now split.
Qed.

Lemma ReadsOnly_orExit A (m : M A) : ReadsOnly m -> ReadsOnly (orExit m).
Proof.
  intros Hm t. destruct (Hm t) as (rs & E & F). exists rs. unfold orExit.
  destruct (m t) as [t1 o]. simpl in *. split; [|assumption].
  destruct o; exact E.
Qed.

Lemma ReadsOnly_ofSum A (r : error + A) : ReadsOnly (ofSum r).
Proof. destruct r; [apply ReadsOnly_fail|apply ReadsOnly_ret]. Qed.

Create HintDb reads.

#[local] Hint Resolve ReadsOnly_ret ReadsOnly_fail ReadsOnly_lift ReadsOnly_ofSum
  ReadsOnly_orExit : reads.

Ltac reads_only :=
  repeat first
    [ apply ReadsOnly_bind; [|intro]
    | apply ReadsOnly_perform; reflexivity
    | solve [auto with reads] ].

Lemma ReadsOnly_getAWSMDSClient c : ReadsOnly (getAWSMDSClient c).
Proof. unfold getAWSMDSClient. reads_only. destruct (negb _); auto with reads. Qed.

Lemma ReadsOnly_getAWSEC2Client region : ReadsOnly (getAWSEC2Client region).
Proof. unfold getAWSEC2Client. destruct (negb _); auto with reads. Qed.

Lemma ReadsOnly_getInstanceAZ c : ReadsOnly (getInstanceAZ c).
Proof. unfold getInstanceAZ. reads_only. Qed.

Lemma ReadsOnly_getInstanceID c : ReadsOnly (getInstanceID c).
Proof. unfold getInstanceID. reads_only. Qed.

Lemma ReadsOnly_getBaseFromInputTag c inputTag instanceID :
  ReadsOnly (getBaseFromInputTag c inputTag instanceID).
Proof.
  unfold getBaseFromInputTag. reads_only.
  destruct a as [err|rs]; [auto with reads|].
  destruct (inputTagOfReservations inputTag rs); auto with reads.
Qed.

Lemma ReadsOnly_findInstanceGroupTagValue c groupTag instanceID :
  ReadsOnly (findInstanceGroupTagValue c groupTag instanceID).
Proof.
  unfold findInstanceGroupTagValue. reads_only.
  destruct a as [err|tags]; [auto with reads|].
  destruct (negb _); [auto with reads|]. destruct tags; auto with reads.
Qed.

Lemma ReadsOnly_findAvailableNumberInInstanceGroup c instanceGroup groupTag sequentialIDTag :
  ReadsOnly (findAvailableNumberInInstanceGroup c instanceGroup groupTag sequentialIDTag).
Proof.
  unfold findAvailableNumberInInstanceGroup. reads_only.
  destruct a as [err|rs]; [auto with reads|].
  destruct (usedOfReservations sequentialIDTag rs []); auto with reads.
Qed.

Lemma ReadsOnly_computeSequentialHostname c base instanceID separator groupTag sequentialIDTag :
  ReadsOnly (computeSequentialHostname c base instanceID separator groupTag sequentialIDTag).
Proof.
  unfold computeSequentialHostname. destruct (MatchString sequentialRe base).
  - destruct (strconv.Atoi (sequentialGroup base)) as [n [err|]]; auto with reads.
  - apply ReadsOnly_bind; [apply ReadsOnly_findInstanceGroupTagValue|intro].
    apply ReadsOnly_bind; [apply ReadsOnly_findAvailableNumberInInstanceGroup|intro].
    auto with reads.
Qed.

Lemma ReadsOnly_fetchBase c giveUp fuel :
  forall b inputTag instanceID, ReadsOnly (fetchBase c giveUp fuel b inputTag instanceID).
Proof.
  induction fuel as [|fuel IH]; intros b inputTag instanceID; cbn [fetchBase].
  - auto with reads.
  - intros t.
    destruct (ReadsOnly_getBaseFromInputTag c inputTag instanceID t) as (rs & E & F).
    destruct (getBaseFromInputTag c inputTag instanceID t) as [t1 o]. simpl in E. subst t1.
    destruct o as [base|err| |]; try (exists rs; split; [reflexivity|assumption]).
    destruct (backoff.Duration b) as [d b'].
    destruct (d =? giveUp); [exists rs; split; [reflexivity|assumption]|].
    assert (ReadsOnly (perform (Sleep d) (fun _ => tt) ;;;
                       fetchBase c giveUp fuel b' inputTag instanceID)) as Hk
      by (apply ReadsOnly_bind; [apply ReadsOnly_perform; reflexivity|intro; apply IH]).
    destruct (Hk (t ++ rs)) as (rs' & E' & F').
    exists (rs ++ rs'). rewrite E', app_assoc. split; [reflexivity|].
    apply Forall_app. now split.
Qed.

(** Everything [run] does before the writes appends no write. *)
Lemma ReadsOnly_resolve c ctx fuel : ReadsOnly (resolve c ctx fuel).
Proof.
  unfold resolve.
  destruct (logger_Configure c _ _); [auto with reads|].
  destruct (user_Current c) as [err|username]; [auto with reads|].
  destruct (negb _); [auto with reads|].
  apply ReadsOnly_bind; [apply ReadsOnly_orExit, ReadsOnly_getAWSMDSClient|intro].
  apply ReadsOnly_bind; [apply ReadsOnly_orExit, ReadsOnly_getInstanceAZ|intro az].
  apply ReadsOnly_bind; [auto with reads|intro region].
  apply ReadsOnly_bind; [apply ReadsOnly_orExit, ReadsOnly_getAWSEC2Client|intro].
  apply ReadsOnly_bind; [apply ReadsOnly_orExit, ReadsOnly_getInstanceID|intro instanceID].
  apply ReadsOnly_bind; [apply ReadsOnly_fetchBase|intro fetched].
  apply ReadsOnly_bind; [|intro; auto with reads].
  destruct (String.eqb (FullName ctx) "instance-id").
  - apply ReadsOnly_bind; [auto with reads|intro; auto with reads].
  - destruct (String.eqb (FullName ctx) "sequential"); [|auto with reads].
    apply ReadsOnly_orExit, ReadsOnly_computeSequentialHostname.
Qed.

(** The writes of a run that is not a dry run are a prefix of [writesOf],
    cut where a write fails, and all of it when [run] succeeds. *)
Lemma persist_writes c ctx v t :
  flagDryRun ctx = false ->
  exists ws,
    fst (persist c ctx v t) = t ++ ws
    /\ isPrefix ws (writesOf ctx v)
    /\ Forall (fun e => isWrite e = true) ws
    /\ ws <> []
    /\ (snd (persist c ctx v t) = Ret tt -> ws = writesOf ctx v).
Proof.
  intros Hdry. unfold persist, writesOf. rewrite Hdry. cbn [negb].
  unfold setSystemHostname, setTagValue, bind, orExit, perform, ofErr.
  destruct (syscall_Sethostname c t (Hostname v)) as [e1|]; cbn.
  { exists [Sethostname (Hostname v)]. repeat split; try discriminate.
    - eexists. reflexivity.
    - repeat constructor. }
  destruct (EC2_CreateTags c (t ++ [Sethostname (Hostname v)]) (InstanceID v)
              (flagOutputTag ctx) (Hostname v)) as [e2|]; cbn.
  { exists [Sethostname (Hostname v);
            EC2CreateTags (InstanceID v) (flagOutputTag ctx) (Hostname v)].
    rewrite <- app_assoc. repeat split; try discriminate.
    - eexists. reflexivity.
    - repeat constructor. }
  destruct (String.eqb (FullName ctx) "sequential"); cbn.
  - destruct (EC2_CreateTags c _ (InstanceID v) (flagInstanceSequentialIDTag ctx)
                (strconv.Itoa (SequentialID v))) as [e3|]; cbn;
      exists [Sethostname (Hostname v);
              EC2CreateTags (InstanceID v) (flagOutputTag ctx) (Hostname v);
              EC2CreateTags (InstanceID v) (flagInstanceSequentialIDTag ctx)
                (strconv.Itoa (SequentialID v))];
      rewrite <- !app_assoc; repeat split; try discriminate;
      try (exists []; reflexivity); repeat constructor.
  - exists [Sethostname (Hostname v);
            EC2CreateTags (InstanceID v) (flagOutputTag ctx) (Hostname v)].
    rewrite <- app_assoc. repeat split; try discriminate.
    + exists []. reflexivity.
    + repeat constructor.
Qed.

(** A sequential run: the first query of the input tag is refused and
    retried after 100ms; the peers hold 1, 2 and 4, so the instance becomes
    "web-3". Six reads and one sleep come first, then the three writes. *)
Example run_sequential_web :
  run webWorld sequentialCtx 3 [] =
  ([ MDSAvailable;
     MDSGetMetadata "placement/availability-zone";
     MDSGetMetadata "instance-id";
     EC2DescribeInstances
       [ {| Name := "instance-id"; ec2.Values := ["i-0123456789abcdef0"] |} ];
     Sleep 100000000;
     EC2DescribeInstances
       [ {| Name := "instance-id"; ec2.Values := ["i-0123456789abcdef0"] |} ];
     EC2DescribeTags (instanceTagFilters "ahs:instance-group" "i-0123456789abcdef0");
     EC2DescribeInstances (groupFilters "web" "ahs:instance-group");
     Sethostname "web-3";
     EC2CreateTags "i-0123456789abcdef0" "Name" "web-3";
     EC2CreateTags "i-0123456789abcdef0" "ahs:instance-id" "3" ],
   Ret tt).
Proof. reflexivity. Qed.

(** C9: in a run that is not a dry run, the trace is a sequence of events
    without any write, which ends with the computation of the hostname,
    followed by writes only. When the computation fails there is no write.
    When it succeeds the writes are, in this order, the local hostname, the
    output tag and, in sequential mode only, the sequential-ID tag; the
    sequence is cut after a write that fails and complete when [run]
    succeeds. *)
Theorem run_reads_before_writes
    (c : World) (ctx : Context) (fuel : nat) (t : trace) :
  flagDryRun ctx = false ->
  exists reads writes,
    fst (resolve c ctx fuel t) = t ++ reads
    /\ fst (run c ctx fuel t) = t ++ reads ++ writes
    /\ Forall (fun e => isWrite e = false) reads
    /\ Forall (fun e => isWrite e = true /\ isRead e = false) writes
    /\ match snd (resolve c ctx fuel t) with
       | Ret v =>
           writes <> []
           /\ isPrefix writes (writesOf ctx v)
           /\ (snd (run c ctx fuel t) = Ret tt -> writes = writesOf ctx v)
       | _ => writes = [] /\ snd (run c ctx fuel t) <> Ret tt
       end.
Proof.
  intros Hdry.
  destruct (ReadsOnly_resolve c ctx fuel t) as (reads & E & F).
  unfold run, bind. destruct (resolve c ctx fuel t) as [t1 o]. simpl in E. subst t1.
  destruct o as [v|err| |].
  - destruct (@persist_writes c ctx v (t ++ reads) Hdry) as (ws & Ew & Hp & Fw & Hne & Hall).
    exists reads, ws. cbn [fst snd]. rewrite Ew, <- app_assoc.
    repeat split; auto.
    eapply Forall_impl; [|exact Fw]. intros e He. split; [exact He|].
    destruct e; simpl in *; congruence.
  - exists reads, []. cbn [fst snd]. rewrite app_nil_r.
    repeat split; auto; discriminate.
  - exists reads, []. cbn [fst snd]. rewrite app_nil_r.
    repeat split; auto; discriminate.
  - exists reads, []. cbn [fst snd]. rewrite app_nil_r.
    repeat split; auto; discriminate.
Qed.

Lemma run_reads_before_writes_witness :
  exists reads writes,
    fst (resolve webWorld sequentialCtx 3 []) = [] ++ reads
    /\ fst (run webWorld sequentialCtx 3 []) = [] ++ reads ++ writes
    /\ Forall (fun e => isWrite e = false) reads
    /\ Forall (fun e => isWrite e = true /\ isRead e = false) writes
    /\ match snd (resolve webWorld sequentialCtx 3 []) with
       | Ret v =>
           writes <> []
           /\ isPrefix writes (writesOf sequentialCtx v)
           /\ (snd (run webWorld sequentialCtx 3 []) = Ret tt
               -> writes = writesOf sequentialCtx v)
       | _ => writes = [] /\ snd (run webWorld sequentialCtx 3 []) <> Ret tt
       end.
Proof.
  apply (@run_reads_before_writes webWorld sequentialCtx 3 []).
  reflexivity.
Defined.

(* ================================================================== *)
(** ** The input tag: the first tag with the key *)

Lemma find_append A (f : A -> bool) l1 l2 :
  find f (l1 ++ l2) = match find f l1 with Some x => Some x | None => find f l2 end.
Proof.
  induction l1 as [|a l1 IH]; simpl; [reflexivity|].
  destruct (f a); [reflexivity|exact IH].
Qed.

Lemma inputTagOfTags_find inputTag tags :
  inputTagOfTags inputTag tags =
  option_map Value (find (fun tag => String.eqb (Key tag) inputTag) tags).
Proof.
  induction tags as [|tag tags IH]; simpl; [reflexivity|].
  destruct (String.eqb (Key tag) inputTag); [reflexivity|exact IH].
Qed.

Lemma inputTagOfInstances_find inputTag insts :
  inputTagOfInstances inputTag insts =
  option_map Value
    (find (fun tag => String.eqb (Key tag) inputTag) (flat_map Tags insts)).
Proof.
  induction insts as [|instance insts IH]; simpl; [reflexivity|].
  rewrite find_append, inputTagOfTags_find.
  destruct (find _ (Tags instance)); [reflexivity|exact IH].
Qed.

Lemma inputTagOfReservations_find inputTag rs :
  inputTagOfReservations inputTag rs =
  option_map Value
    (find (fun tag => String.eqb (Key tag) inputTag) (tagsOfReservations rs)).
Proof.
  unfold tagsOfReservations.
  induction rs as [|reservation rs IH]; simpl; [reflexivity|].
  rewrite find_append, inputTagOfInstances_find.
  destruct (find _ (flat_map Tags (Instances reservation))); [reflexivity|exact IH].
Qed.

(** [getBaseFromInputTag] sends one query for the own instance. An error of
    the query is returned as it is; otherwise the result is the value of the
    first tag, over all reservations and instances of the answer, whose key
    is the input tag, and the error "Instance doesn't contain input-tag"
    when no tag has that key. *)
Theorem getBaseFromInputTag_first_tag
    (c : World) (inputTag instanceID : string) (t : trace) :
  getBaseFromInputTag c inputTag instanceID t =
  (t ++ [EC2DescribeInstances (ownFilters instanceID)],
   match EC2_DescribeInstances c t (ownFilters instanceID) with
   | inl err => Fail err
   | inr reservations =>
       match find (fun tag => String.eqb (Key tag) inputTag)
               (tagsOfReservations reservations) with
       | Some tag => Ret (Value tag)
       | None =>
           Fail (ErrorString ("Instance doesn't contain input-tag '" +++ inputTag +++ "'"))
       end
   end).
Proof.
  unfold getBaseFromInputTag, bind, perform, ownFilters.
  destruct (EC2_DescribeInstances c t _) as [err|rs]; [reflexivity|].
  rewrite inputTagOfReservations_find.
  destruct (find _ (tagsOfReservations rs)); reflexivity.
Qed.

(* ================================================================== *)
(** ** The observed IDs *)

Lemma usedOfTags_parseAll sequentialIDTag tags :
  forall used,
    usedOfTags sequentialIDTag tags used =
    match parseAll (map Value (filter (fun tag => String.eqb (Key tag) sequentialIDTag) tags)) with
    | inl err => inl err
    | inr ns => inr (used ++ ns)
    end.
Proof.
  induction tags as [|tag tags IH]; intros used; simpl.
  - now rewrite app_nil_r.
  - destruct (String.eqb (Key tag) sequentialIDTag); [|apply IH].
    simpl. destruct (strconv.Atoi (Value tag)) as [n [err|]]; [reflexivity|].
    rewrite IH. destruct (parseAll _); [reflexivity|]. now rewrite <- app_assoc.
Qed.

Lemma parseAll_app vs1 vs2 :
  parseAll (vs1 ++ vs2) =
  match parseAll vs1 with
  | inl err => inl err
  | inr ns1 =>
      match parseAll vs2 with
      | inl err => inl err
      | inr ns2 => inr (ns1 ++ ns2)
      end
  end.
Proof.
  induction vs1 as [|v vs1 IH]; simpl.
  - destruct (parseAll vs2); reflexivity.
  - destruct (strconv.Atoi v) as [n [err|]]; [reflexivity|].
    rewrite IH. destruct (parseAll vs1); [reflexivity|].
    destruct (parseAll vs2); reflexivity.
Qed.

Lemma filter_flat_map A B (f : B -> bool) (g : A -> list B) l :
  filter f (flat_map g l) = flat_map (fun a => filter f (g a)) l.
Proof.
  induction l as [|a l IH]; simpl; [reflexivity|].
  now rewrite filter_app, IH.
Qed.

Lemma usedOfInstances_parseAll sequentialIDTag insts :
  forall used,
    usedOfInstances sequentialIDTag insts used =
    match parseAll (map Value (filter (fun tag => String.eqb (Key tag) sequentialIDTag)
                                 (flat_map Tags insts))) with
    | inl err => inl err
    | inr ns => inr (used ++ ns)
    end.
Proof.
  induction insts as [|instance insts IH]; intros used; simpl.
  - now rewrite app_nil_r.
  - rewrite usedOfTags_parseAll, filter_app, map_app, parseAll_app.
    destruct (parseAll (map Value (filter _ (Tags instance)))); [reflexivity|].
    rewrite IH. destruct (parseAll _); [reflexivity|]. now rewrite <- app_assoc.
Qed.

Lemma usedOfReservations_parseAll sequentialIDTag rs :
  forall used,
    usedOfReservations sequentialIDTag rs used =
    match parseAll (sequentialValues sequentialIDTag rs) with
    | inl err => inl err
    | inr ns => inr (used ++ ns)
    end.
Proof.
  unfold sequentialValues, tagsOfReservations.
  induction rs as [|reservation rs IH]; intros used; simpl.
  - now rewrite app_nil_r.
  - rewrite usedOfInstances_parseAll, filter_app, map_app, parseAll_app.
    destruct (parseAll (map Value (filter _ (flat_map Tags (Instances reservation)))));
      [reflexivity|].
    rewrite IH. destruct (parseAll _); [reflexivity|]. now rewrite <- app_assoc.
Qed.

(** [findAvailableNumberInInstanceGroup] observes the values of all tags of
    the answer whose key is the sequential-ID tag, whatever instance carries
    them; it allocates from all of them when each parses as an integer, and
    returns the error of the first that does not. *)
Theorem findAvailableNumber_observes_every_tag
    (c : World) (t : trace) (instanceGroup groupTag sequentialIDTag : string) :
  snd (findAvailableNumberInInstanceGroup c instanceGroup groupTag sequentialIDTag t) =
  match EC2_DescribeInstances c t (groupFilters instanceGroup groupTag) with
  | inl err => Fail err
  | inr reservations =>
      match parseAll (sequentialValues sequentialIDTag reservations) with
      | inl err => Fail err
      | inr used => Ret (lowestFree used)
      end
  end.
Proof.
  rewrite findAvailableNumberInInstanceGroup_eq. simpl.
  destruct (EC2_DescribeInstances c t _) as [err|rs]; [reflexivity|].
  rewrite usedOfReservations_parseAll.
  destruct (parseAll (sequentialValues sequentialIDTag rs)); reflexivity.
Qed.

(* ================================================================== *)
(** ** The lowest free ID: what holds for every observation *)

Lemma firstGap_below rest :
  forall n i k, n = i + Z.of_nat (List.length rest) ->
                i < k < firstGap n i rest -> In k rest.
Proof.
  induction rest as [|u rest IH]; intros n i k Hn Hk; simpl in *.
  - lia.
  - destruct (Z.eqb_spec u (i + 1)) as [->|Hne]; simpl in Hk; [|lia].
    destruct (Z.eq_dec k (i + 1)) as [->|]; [now left|].
    right. apply (@IH n (i + 1) k); lia.
Qed.

(** Whatever was observed (zero, negative and repeated values included),
    every positive integer below the ID that
    [findAvailableNumberInInstanceGroup] returns is among the observed
    values: the allocation leaves no free ID below the one it hands out. *)
Theorem findAvailableNumber_no_free_id_below
    (c : World) (t : trace) (instanceGroup groupTag sequentialIDTag : string)
    (reservations : list Reservation) (used : list Z) (r k : Z) :
  EC2_DescribeInstances c t (groupFilters instanceGroup groupTag) = inr reservations ->
  usedOfReservations sequentialIDTag reservations [] = inr used ->
  snd (findAvailableNumberInInstanceGroup c instanceGroup groupTag sequentialIDTag t) = Ret r ->
  0 < k < r ->
  In k used.
Proof.
  intros Hq Hu. rewrite findAvailableNumberInInstanceGroup_eq, Hq, Hu. simpl.
  intros [= <-] Hk. unfold lowestFree in Hk.
  eapply Permutation_in; [symmetry; apply Ints_perm|].
  eapply firstGap_below; [|exact Hk]. reflexivity.
Qed.

Lemma findAvailableNumber_no_free_id_below_witness :
  In 2 [1; 2; 2; 7].
Proof.
  apply (@findAvailableNumber_no_free_id_below
           (instanceWorld "eu-west-1a" "i-0123456789abcdef0" (fun _ => throttled) (inr [])
              (inr [ {| Instances :=
                          [ peer "i-0aaa0000000000001" [("ahs:instance-id", "1")];
                            peer "i-0aaa0000000000002" [("ahs:instance-id", "2")];
                            peer "i-0aaa0000000000003" [("ahs:instance-id", "2")];
                            peer "i-0aaa0000000000004" [("ahs:instance-id", "7")] ] |} ]))
           [] "web" "ahs:instance-group" "ahs:instance-id"
           [ {| Instances :=
                  [ peer "i-0aaa0000000000001" [("ahs:instance-id", "1")];
                    peer "i-0aaa0000000000002" [("ahs:instance-id", "2")];
                    peer "i-0aaa0000000000003" [("ahs:instance-id", "2")];
                    peer "i-0aaa0000000000004" [("ahs:instance-id", "7")] ] |} ]
           [1; 2; 2; 7] 3 2).
  - reflexivity.
  - reflexivity.
  - reflexivity.
  - lia.
Defined.

(** The allocation does not depend on the order in which the peers are
    listed: two observations with the same values, in any order, give the
    same ID. *)
Theorem lowestFree_order_independent (used used' : list Z) :
  Permutation used used' -> lowestFree used = lowestFree used'.
Proof.
  intros HP. unfold lowestFree.
  assert (sort.Ints used' = sort.Ints used) as ->.
  { apply Ints_unique; [apply Ints_sorted|].
    rewrite HP. apply Ints_perm. }
  reflexivity.
Qed.

Lemma lowestFree_order_independent_witness :
  lowestFree [4; 1; 2] = lowestFree [2; 4; 1].
Proof.
  apply lowestFree_order_independent.
  apply Permutation_sym. apply (Permutation_cons_app [4; 1] [] 2). reflexivity.
Defined.

Lemma LowestFree_unique used r1 r2 :
  LowestFree used r1 -> LowestFree used r2 -> r1 = r2.
Proof.
  intros (P1 & N1 & A1) (P2 & N2 & A2).
  destruct (Z.lt_trichotomy r1 r2) as [H|[H|H]]; [|assumption|].
  - exfalso. apply N1, A2. lia.
  - exfalso. apply N2, A1. lia.
Qed.

Lemma denseIDs_In n k : In k (denseIDs n) <-> 0 < k <= Z.of_nat n.
Proof.
  unfold denseIDs. rewrite in_map_iff. split.
  - intros (j & <- & Hj). apply in_seq in Hj. lia.
  - intros Hk. exists (Z.to_nat k). split; [lia|]. apply in_seq. lia.
Qed.

(** A group whose members hold exactly the IDs 1 to n, in any order, gets
    n + 1 for its next member. *)
Theorem lowestFree_dense_group (used : list Z) (n : nat) :
  Permutation used (denseIDs n) -> lowestFree used = Z.of_nat n + 1.
Proof.
  intros HP. apply (@LowestFree_unique used).
  - apply lowestFree_spec.
    + eapply Permutation_NoDup; [symmetry; exact HP|].
      unfold denseIDs. apply NoDup_map_NoDup_ForallPairs; [|apply seq_NoDup].
      intros a b _ _ Hab. lia.
    + intros x Hx. apply (Permutation_in _ HP), denseIDs_In in Hx. lia.
  - split; [lia|]. split.
    + intros Hin. apply (Permutation_in _ HP), denseIDs_In in Hin. lia.
    + intros k Hk. apply (Permutation_in _ (Permutation_sym HP)), denseIDs_In. lia.
Qed.

Lemma lowestFree_dense_group_witness :
  lowestFree [3; 1; 2] = Z.of_nat 3 + 1.
Proof.
  apply lowestFree_dense_group.
  change (denseIDs 3) with ([1; 2] ++ [3]).
  apply Permutation_cons_append.
Defined.

(* ================================================================== *)
(** ** The instance-ID strategy inside its bounds *)

Lemma computeHostnameWithInstanceID_in_bounds_witness :
  exists tail suffix,
    sliceFrom "webserver" (len "webserver" - 5) = Some tail
    /\ slice "i-0123456789abcdef0" 2 (2 + 5) = Some suffix
    /\ computeHostnameWithInstanceID "webserver" "i-0123456789abcdef0" "-" 5 =
       Ret (if String.eqb tail suffix then "webserver"
            else "webserver" +++ "-" +++ suffix).
Proof.
  apply (@computeHostnameWithInstanceID_in_bounds
           "webserver" "i-0123456789abcdef0" "-" 5).
  - lia.
  - vm_compute. discriminate.
  - vm_compute. discriminate.
  - unfold isInt, minInt, maxInt. vm_compute. split; discriminate.
  - unfold isInt, minInt, maxInt. vm_compute. split; discriminate.
Defined.

Lemma computeHostnameWithInstanceID_idempotent_witness :
  computeHostnameWithInstanceID "webserver-01234" "i-0123456789abcdef0" "-" 5
  = Ret "webserver-01234".
Proof.
  apply (@computeHostnameWithInstanceID_idempotent
           "webserver" "i-0123456789abcdef0" "-" "webserver-01234" 5).
  - unfold isInt, minInt, maxInt. vm_compute. split; discriminate.
  - unfold isInt, minInt, maxInt. vm_compute. split; discriminate.
  - reflexivity.
Defined.

(* ================================================================== *)
(** ** Printing and parsing an ID *)

Lemma uint_digits d :
  Forall (fun ch => strconv.isDigit ch = true) (bytes (NilEmpty.string_of_uint d)).
Proof. induction d; simpl; constructor; auto. Qed.

Lemma uint_value d :
  forall lu,
    fold_left (fun n ch => n * 10 + strconv.digitVal ch)
      (bytes (NilEmpty.string_of_uint d)) (Z.of_N (DecimalPos.Unsigned.of_lu lu))
    = Z.of_N (DecimalPos.Unsigned.of_lu (Decimal.revapp d lu)).
Proof.
  induction d; intros lu;
    cbn [NilEmpty.string_of_uint bytes list_ascii_of_string fold_left Decimal.revapp];
    try reflexivity;
    match goal with
    | |- context [Decimal.revapp d (?D lu)] =>
        rewrite <- (IHd (D lu)); f_equal;
        cbn [DecimalPos.Unsigned.of_lu]; unfold strconv.digitVal
    end;
    match goal with
    | |- context [Z.of_nat (nat_of_ascii ?ch)] =>
        let v := eval vm_compute in (Z.of_nat (nat_of_ascii ch)) in
        change (Z.of_nat (nat_of_ascii ch)) with v
    end; lia.
Qed.

(** [strconv.Itoa] of a positive integer is a non-empty text of digits that
    denotes the integer. *)
Lemma Itoa_positive i :
  0 < i ->
  strconv.Itoa i <> ""
  /\ allOf digit (strconv.Itoa i)
  /\ decimal (strconv.Itoa i) = i.
Proof.
  intros Hi. destruct i as [|p|p]; try lia.
  unfold strconv.Itoa. cbn [Z.to_int NilZero.string_of_int].
  pose proof (DecimalPos.Unsigned.to_uint_nonnil p) as Hnn.
  assert (NilZero.string_of_uint (Pos.to_uint p)
          = NilEmpty.string_of_uint (Pos.to_uint p)) as ->
    by (unfold NilZero.string_of_uint; destruct (Pos.to_uint p); congruence).
  split; [|split].
  - destruct (Pos.to_uint p); try congruence; discriminate.
  - apply uint_digits.
  - unfold decimal. change 0 with (Z.of_N (DecimalPos.Unsigned.of_lu Decimal.Nil)).
    rewrite uint_value.
    change (Decimal.revapp (Pos.to_uint p) Decimal.Nil) with (Decimal.rev (Pos.to_uint p)).
    rewrite <- DecimalPos.Unsigned.of_uint_alt, DecimalPos.Unsigned.of_to. reflexivity.
Qed.

(* ================================================================== *)
(** ** The sequential strategy as a whole *)

Lemma bind_Ret_inv A B (m : M A) (k : A -> M B) t b :
  snd (bind m k t) = Ret b ->
  exists a t1, m t = (t1, Ret a) /\ snd (k a t1) = Ret b.
Proof.
  unfold bind. destruct (m t) as [t1 [a|e| |]]; simpl; try discriminate.
  intros H. eauto.
Qed.

Lemma no_numeric_suffix base :
  (forall ds, ~ NumericSuffix base ds) <-> MatchString sequentialRe base = false.
Proof.
  split.
  - intros H. destruct (MatchString sequentialRe base) eqn:Hm; [|reflexivity].
    apply MatchString_sequentialRe in Hm. destruct Hm as [ds Hds]. now destruct (H ds).
  - intros Hm ds Hds.
    assert (MatchString sequentialRe base = true)
      by (apply MatchString_sequentialRe; eauto).
    congruence.
Qed.

Lemma numbered_base_kept c t base instanceID separator groupTag sequentialIDTag ds :
  NumericSuffix base ds -> decimal ds <= maxInt ->
  computeSequentialHostname c base instanceID separator groupTag sequentialIDTag t =
  (t, Ret (base, decimal ds)).
Proof.
  intros Hs Hfit. unfold computeSequentialHostname.
  assert (MatchString sequentialRe base = true) as ->
    by (apply MatchString_sequentialRe; eauto).
  rewrite (sequential_group_unique Hs).
  destruct Hs as (_ & Hne & Hd). rewrite Atoi_digits by assumption.
  destruct (Z.leb_spec (decimal ds) maxInt); [reflexivity|lia].
Qed.

(** With a separator that ends in a hyphen, the sequential strategy is
    idempotent: on a hostname it has returned, with the ID it has returned,
    it returns the same hostname and the same ID, and sends no query,
    whatever the tags say by then. *)
Theorem computeSequentialHostname_rerun
    (c c' : World) (t t' : trace)
    (base instanceID instanceID' sep groupTag groupTag' sequentialIDTag sequentialIDTag'
       hostname : string) (id : Z) :
  snd (computeSequentialHostname c base instanceID (sep +++ "-")
         groupTag sequentialIDTag t) = Ret (hostname, id) ->
  id <= maxInt ->
  computeSequentialHostname c' hostname instanceID' (sep +++ "-")
    groupTag' sequentialIDTag' t' = (t', Ret (hostname, id)).
Proof.
  intros Hrun Hfit. unfold computeSequentialHostname in Hrun.
  destruct (MatchString sequentialRe base) eqn:Hm.
  - destruct (strconv.Atoi (sequentialGroup base)) as [n [err|]] eqn:Ha;
      simpl in Hrun; [discriminate|].
    injection Hrun as <- <-.
    unfold computeSequentialHostname. now rewrite Hm, Ha.
  - apply bind_Ret_inv in Hrun. destruct Hrun as (group & t1 & _ & Hrun).
    apply bind_Ret_inv in Hrun. destruct Hrun as (sid & t2 & Hfind & Hrun).
    simpl in Hrun. injection Hrun as <- <-.
    assert (0 < sid) as Hpos.
    { pose proof (f_equal snd Hfind) as Hs. simpl in Hs.
      rewrite findAvailableNumberInInstanceGroup_eq in Hs. simpl in Hs.
      destruct (EC2_DescribeInstances c t1 _) as [err|rs]; [discriminate|].
      destruct (usedOfReservations sequentialIDTag rs []) as [err|used]; [discriminate|].
      injection Hs as <-. pose proof (lowestFree_bounds used). lia. }
    destruct (Itoa_positive Hpos) as (Hne & Hd & Hv).
    rewrite (@numbered_base_kept c' t' (base +++ (sep +++ "-") +++ strconv.Itoa sid)
               instanceID' (sep +++ "-") groupTag' sequentialIDTag' (strconv.Itoa sid)).
    + now rewrite Hv.
    + split; [|split; assumption].
      exists (base +++ sep). now rewrite !append_assoc.
    + now rewrite Hv.
Qed.

(** The instance "web" of [steadyWorld] became "web-3"; a second run keeps
    "web-3" and 3 even when every query would be refused. *)
Lemma computeSequentialHostname_rerun_witness :
  computeSequentialHostname throttledWorld "web-3" "i-0123456789abcdef0" ("" +++ "-")
    "ahs:instance-group" "ahs:instance-id" [] = ([], Ret ("web-3", 3)).
Proof.
  apply (@computeSequentialHostname_rerun steadyWorld throttledWorld [] []
           "web" "i-0123456789abcdef0" "i-0123456789abcdef0" ""
           "ahs:instance-group" "ahs:instance-group"
           "ahs:instance-id" "ahs:instance-id" "web-3" 3).
  - reflexivity.
  - unfold maxInt. vm_compute. discriminate.
Defined.

(** On a base without numeric suffix, when the group tag of the instance
    has one value and the sequential-ID tags of the group parse, the
    strategy sends two queries, the group tag of the instance and then the
    instances whose group tag has the value found, and returns the base,
    the separator and, in decimal, the ID that the sort and scan of
    [findAvailableNumberInInstanceGroup] give for the observed values,
    together with that ID. That ID is the lowest free one when the observed
    values are positive and pairwise distinct; with repeated values it can
    be an ID that is taken (observed 1, 1 and 2 give "web-2"). *)
Theorem computeSequentialHostname_allocates
    (c : World) (t : trace)
    (base instanceID separator groupTag sequentialIDTag : string)
    (tag : TagDescription) (reservations : list Reservation) (used : list Z) :
  (forall ds, ~ NumericSuffix base ds) ->
  EC2_DescribeTags c t (instanceTagFilters groupTag instanceID) = inr [tag] ->
  EC2_DescribeInstances c
    (t ++ [EC2DescribeTags (instanceTagFilters groupTag instanceID)])
    (groupFilters (DValue tag) groupTag) = inr reservations ->
  usedOfReservations sequentialIDTag reservations [] = inr used ->
  computeSequentialHostname c base instanceID separator groupTag sequentialIDTag t =
  (t ++ [ EC2DescribeTags (instanceTagFilters groupTag instanceID);
          EC2DescribeInstances (groupFilters (DValue tag) groupTag) ],
   Ret (base +++ separator +++ strconv.Itoa (lowestFree used), lowestFree used))
  /\ (NoDup used -> (forall x, In x used -> 0 < x) ->
      LowestFree used (lowestFree used)).
Proof.
  intros Hno Htag Hq Hu. apply no_numeric_suffix in Hno. split.
  - unfold computeSequentialHostname. rewrite Hno. unfold bind.
    rewrite findInstanceGroupTagValue_eq, Htag.
    rewrite findAvailableNumberInInstanceGroup_eq, Hq, Hu.
    unfold ret. rewrite <- app_assoc. reflexivity.
  - apply lowestFree_spec.
Qed.

Lemma computeSequentialHostname_allocates_witness :
  computeSequentialHostname steadyWorld "web" "i-0123456789abcdef0" "-"
    "ahs:instance-group" "ahs:instance-id" [] =
  ([] ++ [ EC2DescribeTags (instanceTagFilters "ahs:instance-group" "i-0123456789abcdef0");
           EC2DescribeInstances (groupFilters "web" "ahs:instance-group") ],
   Ret ("web" +++ "-" +++ strconv.Itoa (lowestFree [1; 2; 4]), lowestFree [1; 2; 4]))
  /\ (NoDup [1; 2; 4] -> (forall x, In x [1; 2; 4] -> 0 < x) ->
      LowestFree [1; 2; 4] (lowestFree [1; 2; 4])).
Proof.
  apply (@computeSequentialHostname_allocates steadyWorld [] "web" "i-0123456789abcdef0"
           "-" "ahs:instance-group" "ahs:instance-id"
           {| ResourceId := "i-0123456789abcdef0";
              DKey := "ahs:instance-group"; DValue := "web" |}
           [ {| Instances := [ peer "i-0aaa0000000000001"
                                 [("Name", "web"); ("ahs:instance-id", "1")];
                               peer "i-0aaa0000000000002" [("ahs:instance-id", "2")] ] |};
             {| Instances := [ peer "i-0aaa0000000000003"
                                 [("ahs:instance-id", "4"); ("Name", "web")] ] |} ]
           [1; 2; 4]).
  - apply no_numeric_suffix. reflexivity.
  - reflexivity.
  - reflexivity.
  - reflexivity.
Defined.

(** On a base without numeric suffix, when the lookup of the group tag
    fails (the query is refused, or the instance has no or several values
    for the tag), the strategy returns that error and never queries the
    peers: the lookup is the only event. *)
Theorem computeSequentialHostname_no_group_no_peer_query
    (c : World) (t : trace)
    (base instanceID separator groupTag sequentialIDTag : string) (err : error) :
  (forall ds, ~ NumericSuffix base ds) ->
  snd (findInstanceGroupTagValue c groupTag instanceID t) = Fail err ->
  computeSequentialHostname c base instanceID separator groupTag sequentialIDTag t =
  (t ++ [EC2DescribeTags (instanceTagFilters groupTag instanceID)], Fail err).
Proof.
  intros Hno Hfail. apply no_numeric_suffix in Hno.
  unfold computeSequentialHostname. rewrite Hno. unfold bind.
  rewrite findInstanceGroupTagValue_eq in *. cbn [snd] in Hfail. rewrite Hfail. reflexivity.
Qed.

Lemma computeSequentialHostname_no_group_no_peer_query_witness :
  computeSequentialHostname ungroupedWorld "web" "i-0123456789abcdef0" "-"
    "ahs:instance-group" "ahs:instance-id" [] =
  ([] ++ [EC2DescribeTags (instanceTagFilters "ahs:instance-group" "i-0123456789abcdef0")],
   Fail (ErrorString "Unexpected amount of tags retrieved : '0',  expected 1")).
Proof.
  apply computeSequentialHostname_no_group_no_peer_query.
  - apply no_numeric_suffix. reflexivity.
  - reflexivity.
Defined.

(* ================================================================== *)
(** ** The retry loop: any failure, and success after failures *)

Lemma getBaseFromInputTag_trace c inputTag instanceID t :
  fst (getBaseFromInputTag c inputTag instanceID t) =
  t ++ [EC2DescribeInstances (ownFilters instanceID)].
Proof.
  unfold getBaseFromInputTag, bind, perform, ownFilters.
  destruct (EC2_DescribeInstances c t _) as [err|rs]; [reflexivity|].
  destruct (inputTagOfReservations inputTag rs); reflexivity.
Qed.

Lemma fetchBase_step_failed c giveUp fuel k inputTag instanceID t err :
  snd (getBaseFromInputTag c inputTag instanceID t) = Fail err ->
  delay k <> giveUp ->
  fetchBase c giveUp (S fuel) (backoffAt k) inputTag instanceID t =
  fetchBase c giveUp fuel (backoffAt (S k)) inputTag instanceID
    (t ++ [EC2DescribeInstances (ownFilters instanceID); Sleep (delay k)]).
Proof.
  intros Hf Hd. cbn [fetchBase].
  pose proof (getBaseFromInputTag_trace c inputTag instanceID t) as Ht.
  destruct (getBaseFromInputTag c inputTag instanceID t) as [t1 o].
  simpl in Hf, Ht. subst t1 o. rewrite Duration_backoffAt.
  destruct (Z.eqb_spec (delay k) giveUp) as [E|_]; [contradiction|].
  unfold bind, perform. rewrite <- app_assoc. reflexivity.
Qed.

Lemma attemptTrace_shift t instanceID k :
  attemptTrace t instanceID (S k) =
  attemptTrace t instanceID k
  ++ [EC2DescribeInstances (ownFilters instanceID); Sleep (delay k)].
Proof. reflexivity. Qed.

Lemma fetchBase_spins_failed c inputTag instanceID t :
  (forall j, exists err,
      snd (getBaseFromInputTag c inputTag instanceID (attemptTrace t instanceID j))
      = Fail err) ->
  forall fuel k,
    fetchBase c (60 * time.Second) fuel (backoffAt k) inputTag instanceID
      (attemptTrace t instanceID k)
    = (attemptTrace t instanceID (k + fuel), Spinning).
Proof.
  intros Hfail. induction fuel as [|fuel IH]; intros k.
  - rewrite Nat.add_0_r. reflexivity.
  - destruct (Hfail k) as [err Hf].
    rewrite (@fetchBase_step_failed c _ fuel k inputTag instanceID _ err Hf
               (@delay_never_60s k)).
    rewrite <- attemptTrace_shift, IH. do 2 f_equal. lia.
Qed.

(** The loop of [run] retries on every error of [getBaseFromInputTag], not
    only on a refused query: as long as the attempts fail, for instance
    because the instance does not carry the input tag, it queries, sleeps
    the delay of the backoff and queries again, and it never returns. *)
Theorem fetchBase_retries_any_failure
    (c : World) (inputTag instanceID : string) (t : trace) (fuel : nat) :
  (forall j, exists err,
      snd (getBaseFromInputTag c inputTag instanceID (attemptTrace t instanceID j))
      = Fail err) ->
  fetchBase c (60 * time.Second) fuel runBackoff inputTag instanceID t
  = (attemptTrace t instanceID fuel, Spinning).
Proof.
  intros Hfail.
  apply (@fetchBase_spins_failed c inputTag instanceID t Hfail fuel 0%nat).
Qed.

Lemma steadyWorld_no_role t :
  snd (getBaseFromInputTag steadyWorld "Role" "i-0123456789abcdef0" t)
  = Fail (ErrorString "Instance doesn't contain input-tag 'Role'").
Proof. reflexivity. Qed.

(** The instance of [steadyWorld] has the tag "Name" only: asked for the
    input tag "Role", the loop is still retrying after three attempts. *)
Lemma fetchBase_retries_any_failure_witness :
  fetchBase steadyWorld (60 * time.Second) 3 runBackoff "Role" "i-0123456789abcdef0" []
  = (attemptTrace [] "i-0123456789abcdef0" 3, Spinning).
Proof.
  apply (@fetchBase_retries_any_failure steadyWorld "Role" "i-0123456789abcdef0" [] 3).
  intros j. eexists. apply steadyWorld_no_role.
Defined.

Lemma fetchBase_succeeds_from c inputTag instanceID t k v :
  snd (getBaseFromInputTag c inputTag instanceID (attemptTrace t instanceID k)) = Ret v ->
  (forall j, (j < k)%nat -> exists err,
      snd (getBaseFromInputTag c inputTag instanceID (attemptTrace t instanceID j))
      = Fail err) ->
  forall d j fuel,
    (j + d = k)%nat -> (d < fuel)%nat ->
    fetchBase c (60 * time.Second) fuel (backoffAt j) inputTag instanceID
      (attemptTrace t instanceID j)
    = (attemptTrace t instanceID k ++ [EC2DescribeInstances (ownFilters instanceID)],
       Ret (v, runBackoff)).
Proof.
  intros Hok Hfail. induction d as [|d IH]; intros j fuel Hj Hfuel.
  - rewrite Nat.add_0_r in Hj. subst j.
    destruct fuel as [|fuel]; [lia|]. cbn [fetchBase].
    pose proof (getBaseFromInputTag_trace c inputTag instanceID
                  (attemptTrace t instanceID k)) as Ht.
    destruct (getBaseFromInputTag c inputTag instanceID (attemptTrace t instanceID k))
      as [t1 o].
    simpl in Hok, Ht. subst t1 o. reflexivity.
  - destruct fuel as [|fuel]; [lia|].
    destruct (Hfail j ltac:(lia)) as [err Hf].
    rewrite (@fetchBase_step_failed c _ fuel j inputTag instanceID _ err Hf
               (@delay_never_60s j)).
    rewrite <- attemptTrace_shift. apply IH; lia.
Qed.

(** When the first [k] attempts fail and the next one finds the input tag,
    the loop returns its value after exactly [k] sleeps, the delays of the
    backoff from 100ms on, and leaves the backoff reset. No number of
    failures makes it give up before. *)
Theorem fetchBase_succeeds_after_failures
    (c : World) (inputTag instanceID : string) (t : trace) (k fuel : nat) (v : string) :
  (forall j, (j < k)%nat -> exists err,
      snd (getBaseFromInputTag c inputTag instanceID (attemptTrace t instanceID j))
      = Fail err) ->
  snd (getBaseFromInputTag c inputTag instanceID (attemptTrace t instanceID k)) = Ret v ->
  (k < fuel)%nat ->
  fetchBase c (60 * time.Second) fuel runBackoff inputTag instanceID t
  = (attemptTrace t instanceID k ++ [EC2DescribeInstances (ownFilters instanceID)],
     Ret (v, runBackoff)).
Proof.
  intros Hfail Hok Hfuel.
  apply (@fetchBase_succeeds_from c inputTag instanceID t k v Hok Hfail k 0%nat fuel);
    [reflexivity|assumption].
Qed.

(** In [webWorld] the first query is refused and the second answered. *)
Lemma fetchBase_succeeds_after_failures_witness :
  fetchBase webWorld (60 * time.Second) 5 runBackoff "Name" "i-0123456789abcdef0" []
  = (attemptTrace [] "i-0123456789abcdef0" 1
     ++ [EC2DescribeInstances (ownFilters "i-0123456789abcdef0")],
     Ret ("web", runBackoff)).
Proof.
  apply (@fetchBase_succeeds_after_failures webWorld "Name" "i-0123456789abcdef0" [] 1 5 "web").
  - intros j Hj. assert (j = O) as -> by lia. eexists. reflexivity.
  - reflexivity.
  - lia.
Defined.

(* ================================================================== *)
(** ** The region of a valid zone starts the EC2 client *)

Lemma bytes_length s : List.length (bytes s) = String.length s.
Proof. unfold bytes. induction s; simpl; congruence. Qed.

Lemma bytes_substring_prefix s :
  forall n, bytes (substring 0 n s) = firstn n (bytes s).
Proof.
  unfold bytes. induction s as [|ch s IH]; intros n; destruct n; simpl; try reflexivity.
  now rewrite IH.
Qed.

Lemma regionRe_Lang_intro a b w d :
  lower a = true -> lower b = true ->
  w <> [] -> Forall (fun ch => lower ch = true) w ->
  digit d = true ->
  Lang (body regionRe) (a :: b :: "-"%char :: w ++ ["-"%char; d]).
Proof.
  intros Ha Hb Hne Hw Hd. cbn [regionRe body].
  change (a :: b :: "-"%char :: w ++ ["-"%char; d])
    with ([a] ++ [b] ++ ["-"%char] ++ w ++ ["-"%char] ++ [d]).
  repeat (apply LCat); try (apply LClass; auto; now apply hyphen_eq).
  now apply Lang_Plus_Class.
Qed.

(** Every region that [computeRegionFromAZ] returns passes the check of
    [getAWSEC2Client]: in [run] the client is never refused for its
    region. *)
Theorem getAWSEC2Client_accepts_computed_region
    (az region : string) (t : trace) :
  computeRegionFromAZ az = Ret region ->
  getAWSEC2Client region t = (t, Ret tt).
Proof.
  rewrite computeRegionFromAZ_eq.
  destruct (MatchString azRe az) eqn:Hm; [|discriminate].
  intros [= <-].
  apply MatchString_iff in Hm. destruct Hm as (pre & m & post & E & Hm & _).
  apply azRe_Lang in Hm.
  destruct Hm as (a & b & w & d & z & -> & Ha & Hb & Hne & Hw & Hd & Hz).
  assert (MatchString regionRe (dropLast az) = true) as Hr.
  { apply MatchString_iff.
    exists pre, (a :: b :: "-"%char :: w ++ ["-"%char; d]),
           (firstn (List.length post) (z :: post)).
    split; [|split; [now apply regionRe_Lang_intro|discriminate]].
    unfold dropLast. rewrite bytes_substring_prefix, <- bytes_length, E.
    replace (a :: b :: "-"%char :: w ++ ["-"%char; d; z])
      with ((a :: b :: "-"%char :: w ++ ["-"%char; d]) ++ [z])
      by (simpl; rewrite <- app_assoc; reflexivity).
    set (r := a :: b :: "-"%char :: w ++ ["-"%char; d]).
    rewrite <- (app_assoc r [z] post). cbn [app].
    replace (List.length (pre ++ r ++ z :: post) - 1)%nat
      with (List.length pre + (List.length r + List.length post))%nat
      by (rewrite !length_app; simpl; lia).
    rewrite firstn_app_2. f_equal. rewrite firstn_app_2. reflexivity. }
  unfold getAWSEC2Client. rewrite Hr. reflexivity.
Qed.

Lemma getAWSEC2Client_accepts_computed_region_witness :
  getAWSEC2Client "us-gov-west-1" [MDSAvailable] = ([MDSAvailable], Ret tt).
Proof.
  apply (@getAWSEC2Client_accepts_computed_region "us-gov-west-1a").
  reflexivity.
Defined.

(* ================================================================== *)
(** ** [run]: dry runs, privileges and unknown commands *)

(** A dry run writes nothing: no event of its trace is a write, whatever
    the command and whatever the world answers. *)
Theorem run_dry_run_writes_nothing
    (c : World) (ctx : Context) (fuel : nat) (t : trace) :
  flagDryRun ctx = true ->
  exists events,
    fst (run c ctx fuel t) = t ++ events
    /\ Forall (fun e => isWrite e = false) events.
Proof.
  intros Hdry. destruct (ReadsOnly_resolve c ctx fuel t) as (reads & E & F).
  exists reads. split; [|exact F].
  unfold run, bind. destruct (resolve c ctx fuel t) as [t1 o]. simpl in E. subst t1.
  destruct o; try reflexivity.
  unfold persist. rewrite Hdry. reflexivity.
Qed.

Lemma run_dry_run_writes_nothing_witness :
  exists events,
    fst (run steadyWorld dryRunCtx 2 []) = [] ++ events
    /\ Forall (fun e => isWrite e = false) events.
Proof.
  apply (@run_dry_run_writes_nothing steadyWorld dryRunCtx 2 []).
  reflexivity.
Defined.

(** The dry run of the sequential command on [steadyWorld]: six reads and
    no write. *)
Example run_dry_run_steady :
  run steadyWorld dryRunCtx 2 [] =
  ([ MDSAvailable;
     MDSGetMetadata "placement/availability-zone";
     MDSGetMetadata "instance-id";
     EC2DescribeInstances (ownFilters "i-0123456789abcdef0");
     EC2DescribeTags (instanceTagFilters "ahs:instance-group" "i-0123456789abcdef0");
     EC2DescribeInstances (groupFilters "web" "ahs:instance-group") ],
   Ret tt).
Proof. reflexivity. Qed.

(** Unless the current user is known and is root, [run] calls neither the
    metadata service nor the EC2 API and writes nothing: the trace is left
    as it is, and [run] does not succeed. *)
Theorem run_requires_root
    (c : World) (ctx : Context) (fuel : nat) (t : trace) :
  user_Current c <> inr "root" ->
  fst (run c ctx fuel t) = t /\ snd (run c ctx fuel t) <> Ret tt.
Proof.
  intros Huser. unfold run, resolve, bind.
  destruct (logger_Configure c _ _); [split; [reflexivity|discriminate]|].
  destruct (user_Current c) as [err|username]; [split; [reflexivity|discriminate]|].
  destruct (String.eqb_spec username "root") as [->|Hne]; [congruence|].
  split; [reflexivity|discriminate].
Qed.

Lemma run_requires_root_witness :
  fst (run guestWorld sequentialCtx 3 []) = []
  /\ snd (run guestWorld sequentialCtx 3 []) <> Ret tt.
Proof.
  apply (@run_requires_root guestWorld sequentialCtx 3 []).
  discriminate.
Defined.

Lemma resolve_unknown_command c ctx fuel t v :
  FullName ctx <> "instance-id" -> FullName ctx <> "sequential" ->
  snd (resolve c ctx fuel t) <> Ret v.
Proof.
  intros H1 H2 Hret. unfold resolve in Hret.
  destruct (logger_Configure c _ _); [discriminate|].
  destruct (user_Current c) as [err|username]; [discriminate|].
  destruct (negb _); [discriminate|].
  apply bind_Ret_inv in Hret. destruct Hret as (? & ? & _ & Hret).
  apply bind_Ret_inv in Hret. destruct Hret as (? & ? & _ & Hret).
  apply bind_Ret_inv in Hret. destruct Hret as (? & ? & _ & Hret).
  apply bind_Ret_inv in Hret. destruct Hret as (? & ? & _ & Hret).
  apply bind_Ret_inv in Hret. destruct Hret as (? & ? & _ & Hret).
  apply bind_Ret_inv in Hret. destruct Hret as (? & ? & _ & Hret).
  apply bind_Ret_inv in Hret. destruct Hret as (? & ? & Hnamed & _).
  destruct (String.eqb_spec (FullName ctx) "instance-id"); [contradiction|].
  destruct (String.eqb_spec (FullName ctx) "sequential"); [contradiction|].
  discriminate.
Qed.

(** With a command other than "instance-id" and "sequential", [run] never
    succeeds and never writes: no event of its trace is a write, whatever
    the world answers. *)
Theorem run_unknown_command_writes_nothing
    (c : World) (ctx : Context) (fuel : nat) (t : trace) :
  FullName ctx <> "instance-id" -> FullName ctx <> "sequential" ->
  snd (run c ctx fuel t) <> Ret tt
  /\ exists events,
       fst (run c ctx fuel t) = t ++ events
       /\ Forall (fun e => isWrite e = false) events.
Proof.
  intros H1 H2.
  pose proof (fun v => @resolve_unknown_command c ctx fuel t v H1 H2) as Hno.
  destruct (ReadsOnly_resolve c ctx fuel t) as (reads & E & F).
  unfold run, bind. destruct (resolve c ctx fuel t) as [t1 o]. simpl in E, Hno. subst t1.
  destruct o as [v|err| |]; [now destruct (Hno v)| | |];
    (split; [discriminate|exists reads; split; [reflexivity|exact F]]).
Qed.

Lemma run_unknown_command_writes_nothing_witness :
  snd (run steadyWorld unknownCtx 2 []) <> Ret tt
  /\ exists events,
       fst (run steadyWorld unknownCtx 2 []) = [] ++ events
       /\ Forall (fun e => isWrite e = false) events.
Proof.
  apply (@run_unknown_command_writes_nothing steadyWorld unknownCtx 2 []);
    discriminate.
Defined.

(** On [steadyWorld] the unknown command is refused after four reads. *)
Example run_unknown_steady :
  run steadyWorld unknownCtx 2 [] =
  ([ MDSAvailable;
     MDSGetMetadata "placement/availability-zone";
     MDSGetMetadata "instance-id";
     EC2DescribeInstances (ownFilters "i-0123456789abcdef0") ],
   Fail (ExitError (ErrorString "Function random is not implemented") 1)).
Proof. reflexivity. Qed.

(** The writes are not undone. When the local hostname cannot be set,
    [run] exits with that error and writes no tag. When the hostname is set
    and the output tag cannot be written, [run] exits with that error: the
    hostname stays set and the sequential-ID tag is not written. *)
Theorem persist_stops_at_failed_write
    (c : World) (ctx : Context) (v : Values) (t : trace) :
  flagDryRun ctx = false ->
  (forall err,
      syscall_Sethostname c t (Hostname v) = Some err ->
      persist c ctx v t = (t ++ [Sethostname (Hostname v)], Fail (ExitError err 1)))
  /\
  (forall err,
      syscall_Sethostname c t (Hostname v) = None ->
      EC2_CreateTags c (t ++ [Sethostname (Hostname v)])
        (InstanceID v) (flagOutputTag ctx) (Hostname v) = Some err ->
      persist c ctx v t =
      (t ++ [ Sethostname (Hostname v);
              EC2CreateTags (InstanceID v) (flagOutputTag ctx) (Hostname v) ],
       Fail (ExitError err 1))).
Proof.
  intros Hdry. unfold persist. rewrite Hdry. cbn [negb].
  unfold setSystemHostname, setTagValue, bind, orExit, perform, ofErr.
  split.
  - intros err Hs. rewrite Hs. reflexivity.
  - intros err Hs Ht. rewrite Hs. cbn. rewrite Ht. cbn.
    rewrite <- app_assoc. reflexivity.
Qed.

Lemma persist_stops_at_failed_write_witness :
  (forall err,
      syscall_Sethostname readOnlyTagsWorld [] (Hostname web3) = Some err ->
      persist readOnlyTagsWorld sequentialCtx web3 []
      = ([] ++ [Sethostname (Hostname web3)], Fail (ExitError err 1)))
  /\
  (forall err,
      syscall_Sethostname readOnlyTagsWorld [] (Hostname web3) = None ->
      EC2_CreateTags readOnlyTagsWorld ([] ++ [Sethostname (Hostname web3)])
        (InstanceID web3) (flagOutputTag sequentialCtx) (Hostname web3) = Some err ->
      persist readOnlyTagsWorld sequentialCtx web3 [] =
      ([] ++ [ Sethostname (Hostname web3);
               EC2CreateTags (InstanceID web3) (flagOutputTag sequentialCtx)
                 (Hostname web3) ],
       Fail (ExitError err 1))).
Proof.
  apply (@persist_stops_at_failed_write readOnlyTagsWorld sequentialCtx web3 []).
  reflexivity.
Defined.

(** On [readOnlyTagsWorld] the run sets the hostname and stops at the
    output tag. *)
Example run_read_only_tags :
  run readOnlyTagsWorld sequentialCtx 2 [] =
  ([ MDSAvailable;
     MDSGetMetadata "placement/availability-zone";
     MDSGetMetadata "instance-id";
     EC2DescribeInstances (ownFilters "i-0123456789abcdef0");
     EC2DescribeTags (instanceTagFilters "ahs:instance-group" "i-0123456789abcdef0");
     EC2DescribeInstances (groupFilters "web" "ahs:instance-group");
     Sethostname "web-3";
     EC2CreateTags "i-0123456789abcdef0" "Name" "web-3" ],
   Fail (ExitError
           (APIError "UnauthorizedOperation: You are not authorized to perform this operation.")
           1)).
Proof. reflexivity. Qed.

(* ================================================================== *)
(** ** Sequential allocation: an ID held twice *)

Lemma sorted_app l1 l2 :
  StronglySorted Z.le l1 -> StronglySorted Z.le l2 ->
  (forall x y, In x l1 -> In y l2 -> x <= y) ->
  StronglySorted Z.le (l1 ++ l2).
Proof.
  induction 1 as [|a l1 Hs IH Ha]; intros H2 Hc; simpl; [assumption|].
  constructor.
  - apply IH; [assumption|]. intros x y Hx Hy. apply Hc; [now right|assumption].
  - apply Forall_app. split; [assumption|].
    apply Forall_forall. intros y Hy. apply Hc; [now left|assumption].
Qed.

Lemma dense_sorted m : forall a, StronglySorted Z.le (map Z.of_nat (seq a m)).
Proof.
  induction m as [|m IH]; intros a; simpl; constructor; [apply IH|].
  apply Forall_forall. intros y Hy. apply in_map_iff in Hy.
  destruct Hy as (j & <- & Hj). apply in_seq in Hj. lia.
Qed.

Lemma firstGap_dense_prefix m :
  forall i l n,
    firstGap n (Z.of_nat i) (map Z.of_nat (seq (S i) m) ++ l)
    = firstGap n (Z.of_nat (i + m)) l.
Proof.
  induction m as [|m IH]; intros i l n; cbn [seq map app firstGap].
  - now rewrite Nat.add_0_r.
  - replace (Z.of_nat i + 1) with (Z.of_nat (S i)) by lia.
    rewrite Z.eqb_refl. cbn [negb]. rewrite IH. do 2 f_equal. lia.
Qed.

(** The observation of the IDs 1 to d, d a second time, d + 1 and any
    larger ones, in any order, sorts to the IDs 1 to d followed by d. *)
Lemma Ints_duplicate used d rest :
  Permutation used (denseIDs d ++ Z.of_nat d :: Z.of_nat d + 1 :: rest) ->
  (forall x, In x rest -> Z.of_nat d + 1 <= x) ->
  sort.Ints used =
  denseIDs d ++ Z.of_nat d :: sort.Ints (Z.of_nat d + 1 :: rest).
Proof.
  intros HP Hrest. symmetry. apply Ints_unique.
  - apply sorted_app.
    + apply dense_sorted.
    + constructor; [apply Ints_sorted|].
      apply Forall_forall. intros y Hy.
      apply (Permutation_in _ (Permutation_sym (Ints_perm _))) in Hy.
      destruct Hy as [<-|Hy]; [lia|]. specialize (Hrest _ Hy). lia.
    + intros x y Hx Hy. apply denseIDs_In in Hx.
      destruct Hy as [<-|Hy]; [lia|].
      apply (Permutation_in _ (Permutation_sym (Ints_perm _))) in Hy.
      destruct Hy as [<-|Hy]; [lia|]. specialize (Hrest _ Hy). lia.
  - rewrite HP. apply Permutation_app_head. constructor. apply Ints_perm.
Qed.

(** C2: [findAvailableNumberInInstanceGroup] does not return the lowest
    positive integer that is not among the observed IDs when an ID is held
    twice. With the IDs 1 to d observed, d by two peers, and d + 1 observed
    as well (and any larger IDs), it returns d + 1, which is among the
    observed IDs: the slice is sorted and scanned by index without the
    repeated value being removed. *)
Theorem findAvailableNumber_duplicate_returns_taken_id
    (c : World) (t : trace) (instanceGroup groupTag sequentialIDTag : string)
    (reservations : list Reservation) (used rest : list Z) (d : nat) :
  EC2_DescribeInstances c t (groupFilters instanceGroup groupTag) = inr reservations ->
  usedOfReservations sequentialIDTag reservations [] = inr used ->
  (0 < d)%nat ->
  Permutation used (denseIDs d ++ Z.of_nat d :: Z.of_nat d + 1 :: rest) ->
  (forall x, In x rest -> Z.of_nat d + 1 <= x) ->
  snd (findAvailableNumberInInstanceGroup c instanceGroup groupTag sequentialIDTag t)
  = Ret (Z.of_nat d + 1)
  /\ In (Z.of_nat d + 1) used
  /\ ~ LowestFree used (Z.of_nat d + 1).
Proof.
  intros Hq Hu _ HP Hrest.
  assert (In (Z.of_nat d + 1) used) as Hin.
  { apply (Permutation_in _ (Permutation_sym HP)).
    apply in_or_app. right. right. now left. }
  split; [|split; [exact Hin|intros (_ & Hnot & _); contradiction]].
  rewrite findAvailableNumberInInstanceGroup_eq, Hq, Hu. cbn [snd]. f_equal.
  unfold lowestFree. rewrite (@Ints_duplicate used d rest HP Hrest).
  unfold denseIDs. rewrite (@firstGap_dense_prefix d 0%nat). cbn [firstGap Nat.add].
  destruct (Z.eqb_spec (Z.of_nat d) (Z.of_nat d + 1)); [lia|reflexivity].
Qed.

(** Two peers hold the ID 1 and a third holds 2: the next ID is 2. *)
Lemma findAvailableNumber_duplicate_returns_taken_id_witness :
  snd (findAvailableNumberInInstanceGroup
         (instanceWorld "eu-west-1a" "i-0123456789abcdef0" (fun _ => throttled)
            (inr []) (groupOf "1" "1" "2"))
         "web" "ahs:instance-group" "ahs:instance-id" [])
  = Ret (Z.of_nat 1 + 1)
  /\ In (Z.of_nat 1 + 1) [1; 1; 2]
  /\ ~ LowestFree [1; 1; 2] (Z.of_nat 1 + 1).
Proof.
  apply (@findAvailableNumber_duplicate_returns_taken_id
           (instanceWorld "eu-west-1a" "i-0123456789abcdef0" (fun _ => throttled)
              (inr []) (groupOf "1" "1" "2"))
           [] "web" "ahs:instance-group" "ahs:instance-id"
           [ {| Instances := [ peer "i-0aaa0000000000001"
                                 [("Name", "web"); ("ahs:instance-id", "1")];
                               peer "i-0aaa0000000000002" [("ahs:instance-id", "1")] ] |};
             {| Instances := [ peer "i-0aaa0000000000003"
                                 [("ahs:instance-id", "2"); ("Name", "web")] ] |} ]
           [1; 1; 2] [] 1%nat).
  - reflexivity.
  - reflexivity.
  - lia.
  - reflexivity.
  - intros x [].
Defined.

(** In [run]: on the instance "web" whose peers hold 1, 1 and 2, the run
    sets the hostname "web-2" and writes the sequential ID 2. *)
Example run_sequential_duplicate :
  run (instanceWorld "eu-west-1a" "i-0123456789abcdef0"
         (fun _ => named "i-0123456789abcdef0" "web")
         (inr [ {| ResourceId := "i-0123456789abcdef0";
                   DKey := "ahs:instance-group"; DValue := "web" |} ])
         (groupOf "1" "1" "2"))
      sequentialCtx 2 [] =
  ([ MDSAvailable;
     MDSGetMetadata "placement/availability-zone";
     MDSGetMetadata "instance-id";
     EC2DescribeInstances (ownFilters "i-0123456789abcdef0");
     EC2DescribeTags (instanceTagFilters "ahs:instance-group" "i-0123456789abcdef0");
     EC2DescribeInstances (groupFilters "web" "ahs:instance-group");
     Sethostname "web-2";
     EC2CreateTags "i-0123456789abcdef0" "Name" "web-2";
     EC2CreateTags "i-0123456789abcdef0" "ahs:instance-id" "2" ],
   Ret tt).
Proof. reflexivity. Qed.
